(** * AstrBot notifier: a shallow embedding of [notifier/astrbot.py]

    The module pushes illustration records to an AstrBot HTTP gateway.
    Python values coming back from the gateway are modelled by [json]
    (with [JNull] standing for [None]); the coroutines of the class are
    functions in a state-and-exception monad [M] over a [store] that holds
    the mutable attributes of the notifier and the trace of the calls made
    to the outside world.  What lives outside the file (the gateway, the
    image host, Pillow, the helpers of [utils]) is a parameter, bundled in
    [World]. *)

From Stdlib Require Import PrimFloat.
From stdpp Require Import gmap strings list fin_maps pretty.

Set Warnings "-register-all".

Open Scope Z_scope.

(* ===================================================================== *)
(** ** Python values and exceptions *)
(* ===================================================================== *)

(** The exceptions the file tells apart: [aiohttp.ClientError] (and its
    subclasses), [asyncio.TimeoutError], and every other instance of
    [Exception], kept with the name of its class. *)
Inductive exn : Type :=
| ClientError
| TimeoutError
| OtherException (cls : string).

(** What a call that may raise gives back. *)
Inductive outcome (A : Type) : Type :=
| Returns (a : A)
| Raises (e : exn).
Arguments Returns {A} a.
Arguments Raises {A} e.

(** Parsed JSON, as [resp.json()] returns it.  [JNull] is [None]; a JSON
    object is a [dict], kept as an association list in which the first
    binding of a key is the live one.  Numbers are the integral ones. *)
Inductive json : Type :=
| JNull
| JBool (b : bool)
| JNum (n : Z)
| JStr (s : string)
| JArr (items : list json)
| JObj (fields : list (string * json)).

(** Python truthiness, the test behind [if x:] and [x or y]. *)
Definition truthy (v : json) : bool :=
  match v with
  | JNull => false
  | JBool b => b
  | JNum n => negb (n =? 0)
  | JStr s => negb (String.eqb s "")
  | JArr items => negb (bool_decide (items = []))
  | JObj fields => negb (bool_decide (fields = []))
  end.

(** [x or y] *)
Definition py_or (x y : json) : json := if truthy x then x else y.

Fixpoint assoc_get (key : string) (fields : list (string * json)) : json :=
  match fields with
  | [] => JNull
  | (k, v) :: rest => if String.eqb k key then v else assoc_get key rest
  end.

(** [result.get(key)]: only a dict has the method; on any other value the
    attribute lookup raises [AttributeError]. *)
Definition py_get (result : json) (key : string) : outcome json :=
  match result with
  | JObj fields => Returns (assoc_get key fields)
  | _ => Raises (OtherException "AttributeError")
  end.

(** Keys of a Python dict.  [True] and [1] are one key, as are [False] and
    [0]; lists and dicts are unhashable. *)
Inductive pykey : Type :=
| KNone
| KInt (n : Z)
| KStr (s : string).

Global Instance pykey_eq_dec : EqDecision pykey.
Proof. solve_decision. Defined.

Global Instance pykey_countable : Countable pykey.
Proof.
  refine (inj_countable'
    (fun k => match k with
              | KNone => inl ()
              | KInt n => inr (inl n)
              | KStr s => inr (inr s)
              end)
    (fun x => match x with
              | inl _ => KNone
              | inr (inl n) => KInt n
              | inr (inr s) => KStr s
              end) _).
  intros []; reflexivity.
Defined.

Definition hash_key (v : json) : outcome pykey :=
  match v with
  | JNull => Returns KNone
  | JBool b => Returns (KInt (if b then 1 else 0))
  | JNum n => Returns (KInt n)
  | JStr s => Returns (KStr s)
  | JArr _ | JObj _ => Raises (OtherException "TypeError")
  end.

(* ===================================================================== *)
(** ** Strings *)
(* ===================================================================== *)

Definition nl : string := String (Ascii.ascii_of_nat 10) "".

(** [sep.join(parts)] *)
Fixpoint join (sep : string) (parts : list string) : string :=
  match parts with
  | [] => ""
  | [p] => p
  | p :: rest => p +:+ sep +:+ join sep rest
  end.

(** [str(n)] for an [int]. *)
Definition str (n : Z) : string := pretty n.

(** [s.rstrip('/')] *)
Fixpoint rstrip_slash (s : string) : string :=
  match s with
  | "" => ""
  | String c rest =>
      match rstrip_slash rest with
      | "" => if Ascii.eqb c (Ascii.ascii_of_nat 47) then "" else String c ""
      | rest' => String c rest'
      end
  end.

(* ===================================================================== *)
(** ** Records pushed and the notifier's configuration *)
(* ===================================================================== *)

(** Modelled from the spec: [pixiv_client.Illust], whose declaration is not
    part of this file.  The fields are the ones the notifier reads: the
    identifier, title, author, bookmark count, tags, page count, the
    optional [type] and [match_score] attributes (read with [getattr] and a
    default), the adult-content flag and the image URLs, cover first. *)
Record Illust : Type := {
  id : Z;
  title : string;
  user_name : string;
  bookmark_count : Z;
  tags : list string;
  page_count : Z;
  type : option string;
  is_r18 : bool;
  match_score : option float;
  image_urls : list string
}.

(** The attributes [__init__] sets and nothing later changes ([on_action]
    and [client], which no method of the class reads, are left out).  The
    feedback callback is kept as what decides whether a call to it returns
    or raises; the call itself goes to the trace. *)
Record AstrBotNotifier : Type := {
  http_url : string;
  unified_msg_origin : string;
  api_key : option string;
  on_feedback : option (Z -> string -> outcome unit);
  max_pages : Z;
  image_quality : Z;
  max_image_size : Z
}.

(** [__init__], for the arguments kept here: the trailing slashes of the
    base URL go.  The mutable attributes start as in [init_store]. *)
Definition __init__ (http_url unified_msg_origin : string)
    (api_key : option string)
    (on_feedback : option (Z -> string -> outcome unit))
    (max_pages image_quality max_image_size : Z) : AstrBotNotifier :=
  {| http_url := rstrip_slash http_url;
     unified_msg_origin := unified_msg_origin;
     api_key := api_key;
     on_feedback := on_feedback;
     max_pages := max_pages;
     image_quality := image_quality;
     max_image_size := max_image_size |}.

(** A segment of a message chain, in the three shapes the gateway takes:
    [{"type": "Plain", "text": _}], [{"type": "Image", "base64": _}] and
    [{"type": "Image", "url": _}]. *)
Inductive segment : Type :=
| Plain (text : string)
| Image_base64 (base64 : string)
| Image_url (url : string).

Global Instance segment_eq_dec : EqDecision segment.
Proof. solve_decision. Defined.

(** The request [_post_message] hands to [session.post]. *)
Record request : Type := {
  req_url : string;
  req_headers : list (string * string);
  req_origin : string;
  req_message : list segment;
  req_timeout : Z
}.

(** What the gateway answers: the status, and what [resp.json()] and
    [resp.text()] give when awaited. *)
Record response : Type := {
  status : Z;
  json_body : outcome json;
  text_body : outcome string
}.

Inductive level : Type := DEBUG | INFO | WARNING | ERROR.

(** Calls that leave the notifier, in the order they are made; a request
    is kept with the answer it got. *)
Inductive event : Type :=
| EvPost (r : request) (answer : outcome response)
| EvDownload (url : string) (answer : outcome (option (list Byte.byte)))
| EvSleep (seconds : Z)
| EvLog (lvl : level)
| EvFeedback (illust_id : Z) (action : string).

Inductive session_state : Type := NoSession | SessionOpen | SessionClosed.

(** The mutable part: [self._session], [self._message_illust_map], the
    trace of outside calls, and [success_ids], the list local to [send]
    (it sits here because the [try] block appends to it and a later
    statement of the same block may still raise). *)
#[projections(primitive)]
Record store : Type := {
  _session : session_state;
  _message_illust_map : gmap pykey Z;
  events : list event;
  success_ids : list Z
}.

Definition set_session (s : session_state) (st : store) : store :=
  {| _session := s; _message_illust_map := _message_illust_map st;
     events := events st; success_ids := success_ids st |}.

Definition set_map (m : gmap pykey Z) (st : store) : store :=
  {| _session := _session st; _message_illust_map := m;
     events := events st; success_ids := success_ids st |}.

Definition emit (e : event) (st : store) : store :=
  {| _session := _session st; _message_illust_map := _message_illust_map st;
     events := events st ++ [e]; success_ids := success_ids st |}.

Definition set_success_ids (l : list Z) (st : store) : store :=
  {| _session := _session st; _message_illust_map := _message_illust_map st;
     events := events st; success_ids := l |}.

(** A notifier that has done nothing yet: no session, an empty map, an
    empty trace. *)
Definition init_store : store :=
  {| _session := NoSession; _message_illust_map := ∅;
     events := []; success_ids := [] |}.

Definition emit_all (evs : list event) (st : store) : store :=
  {| _session := _session st; _message_illust_map := _message_illust_map st;
     events := events st ++ evs; success_ids := success_ids st |}.

(** The message chains posted so far, oldest first, and the answers they
    got. *)
Fixpoint posts (tr : list event) : list (list segment) :=
  match tr with
  | [] => []
  | EvPost r _ :: tr' => req_message r :: posts tr'
  | _ :: tr' => posts tr'
  end.

Fixpoint answers (tr : list event) : list (outcome response) :=
  match tr with
  | [] => []
  | EvPost _ a :: tr' => a :: answers tr'
  | _ :: tr' => answers tr'
  end.

Fixpoint pauses (tr : list event) : list Z :=
  match tr with
  | [] => []
  | EvSleep s :: tr' => s :: pauses tr'
  | _ :: tr' => pauses tr'
  end.

Definition count_posts (tr : list event) : nat := length (posts tr).

Fixpoint count_downloads (tr : list event) : nat :=
  match tr with
  | [] => 0%nat
  | EvDownload _ _ :: tr' => S (count_downloads tr')
  | _ :: tr' => count_downloads tr'
  end.

(* ===================================================================== *)
(** ** The monad of the coroutines *)
(* ===================================================================== *)

Definition M (A : Type) : Type := store -> outcome A * store.

Definition ret {A} (a : A) : M A := fun st => (Returns a, st).

Definition bind {A B} (c : M A) (k : A -> M B) : M B :=
  fun st =>
    match c st with
    | (Returns a, st') => k a st'
    | (Raises e, st') => (Raises e, st')
    end.

Notation "x <- c ;; k" := (bind c (fun x => k))
  (at level 100, c at next level, right associativity).
Notation "c ;; k" := (bind c (fun _ => k))
  (at level 100, right associativity).

(** A call whose result the outside world decides. *)
Definition lift {A} (o : outcome A) : M A := fun st => (o, st).

(** The same sequencing for calls that touch no state. *)
Definition obind {A B} (o : outcome A) (k : A -> outcome B) : outcome B :=
  match o with
  | Returns a => k a
  | Raises e => Raises e
  end.

Notation "x <~ o ;; k" := (obind o (fun x => k))
  (at level 100, o at next level, right associativity).

(** [try: body except ...: handler].  The handler says which exceptions
    it takes; the others go on. *)
Definition try_except {A} (body : M A) (handler : exn -> option (M A)) : M A :=
  fun st =>
    match body st with
    | (Returns a, st') => (Returns a, st')
    | (Raises e, st') =>
        match handler e with
        | Some h => h st'
        | None => (Raises e, st')
        end
    end.

Definition log (lvl : level) : M unit :=
  fun st => (Returns tt, emit (EvLog lvl) st).

(** [await asyncio.sleep(seconds)] *)
Definition asyncio_sleep (seconds : Z) : M unit :=
  fun st => (Returns tt, emit (EvSleep seconds) st).

(* ===================================================================== *)
(** ** The outside world *)
(* ===================================================================== *)

(** Everything the file calls and does not define.  The Pillow operations
    work on an abstract [image] and may raise; [img_thumbnail] and
    [img_paste], which mutate in Python, give back the mutated image.  The
    gateway and the image host answer by the number of requests they have
    already seen, so that their answers may change from call to call.

    [get_pixiv_cat_url] and [download_image_with_referer] are the helpers
    imported from [utils]: the first builds the mirror URL of an
    illustration identifier, the second fetches the bytes of an image and
    gives a falsy value (or raises) when the fetch fails.  [format_0f] is
    the [:.0f] format of a float, [b64encode] is [base64.b64encode] followed
    by [decode].  The imports done inside the functions are taken to work. *)
Record World : Type := {
  image : Type;
  Image_open : list Byte.byte -> outcome image;
  Image_new : string -> Z * Z -> Z * Z * Z -> outcome image;
  img_mode : image -> string;
  img_size : image -> Z * Z;
  img_convert : image -> string -> outcome image;
  img_split : image -> outcome (list image);
  img_paste : image -> image -> image -> outcome image;
  img_thumbnail : image -> Z * Z -> outcome image;
  img_save : image -> Z -> outcome (list Byte.byte);
  b64encode : list Byte.byte -> string;
  format_0f : float -> string;
  get_pixiv_cat_url : Z -> string;
  download_image_with_referer : nat -> string -> outcome (option (list Byte.byte));
  session_post : nat -> request -> outcome response
}.

Section Notifier.

Context (W : World) (self : AstrBotNotifier).

(** [_ensure_session]: a session is made when there is none or the one
    there is closed. *)
Definition _ensure_session : M unit :=
  fun st =>
    match _session st with
    | SessionOpen => (Returns tt, st)
    | NoSession | SessionClosed => (Returns tt, set_session SessionOpen st)
    end.

(** [close] *)
Definition close : M unit :=
  fun st =>
    match _session st with
    | SessionOpen => (Returns tt, set_session SessionClosed st)
    | NoSession | SessionClosed => (Returns tt, st)
    end.

(** [self._session.post(url, json=payload, headers=headers, timeout=30)] *)
Definition post (r : request) : M response :=
  fun st =>
    let answer := session_post W (count_posts (events st)) r in
    (answer, emit (EvPost r answer) st).

(** The request [_post_message] builds for a chain. *)
Definition request_of (message_chain : list segment) : request :=
  let url := http_url self +:+ "/api/v1/send" in
  let headers :=
    ("Content-Type", "application/json") ::
    match api_key self with
    | Some key => if String.eqb key "" then []
                  else [("Authorization", "Bearer " +:+ key)]
    | None => []
    end in
  {| req_url := url; req_headers := headers;
     req_origin := unified_msg_origin self;
     req_message := message_chain; req_timeout := 30 |}.

(** [_post_message] *)
Definition _post_message (message_chain : list segment) : M json :=
  _ensure_session ;;
  try_except
    (resp <- post (request_of message_chain) ;;
     if status resp =? 200 then
       result <- lift (json_body resp) ;;
       log DEBUG ;;
       ret result
     else
       text <- lift (text_body resp) ;;
       log ERROR ;;
       ret JNull)
    (fun e =>
       match e with
       | ClientError => Some (log ERROR ;; ret JNull)
       | TimeoutError => Some (log ERROR ;; ret JNull)
       | OtherException _ => None
       end).

(** [await download_image_with_referer(self._session, url)] *)
Definition fetch (url : string) : M (option (list Byte.byte)) :=
  fun st =>
    let answer :=
      download_image_with_referer W (count_downloads (events st)) url in
    (answer, emit (EvDownload url answer) st).

(** [seq[-1]] *)
Definition py_last {A} (l : list A) : outcome A :=
  match last l with
  | Some x => Returns x
  | None => Raises (OtherException "IndexError")
  end.

(** The [with Image.open(...)] block of [_download_and_encode_image]:
    decode, flatten transparency onto white, shrink, encode. *)
Definition compress_image (image_data : list Byte.byte) : outcome string :=
  img <~ Image_open W image_data ;;
  img <~ (if String.eqb (img_mode W img) "P"
          then img_convert W img "RGBA" else Returns img) ;;
  img <~ (if String.eqb (img_mode W img) "RGBA"
             || String.eqb (img_mode W img) "LA"
          then
            bg <~ Image_new W "RGB" (img_size W img) (255, 255, 255) ;;
            bands <~ img_split W img ;;
            mask <~ py_last bands ;;
            img_paste W bg img mask
          else if negb (String.eqb (img_mode W img) "RGB")
          then img_convert W img "RGB"
          else Returns img) ;;
  img <~ (if Z.max (img_size W img).1 (img_size W img).2
               >? max_image_size self
          then img_thumbnail W img (max_image_size self, max_image_size self)
          else Returns img) ;;
  output <~ img_save W img (image_quality self) ;;
  Returns (b64encode W output).

(** [_download_and_encode_image] *)
Definition _download_and_encode_image (url : string) : M (option string) :=
  try_except
    (_ensure_session ;;
     image_data <- fetch url ;;
     match image_data with
     | None | Some [] => ret None
     | Some ((_ :: _) as image_data) =>
         b64 <- lift (compress_image image_data) ;;
         ret (Some b64)
     end)
    (fun e => Some (log WARNING ;; ret None)).

(** The pieces of [format_message], named as its local variables. *)
Definition tags_text (illust : Illust) : string :=
  join " " (map (fun t => "#" +:+ t) (take 5 (tags illust))).

Definition r18_mark (illust : Illust) : string :=
  if is_r18 illust then "🔞 " else "".

Definition ugoira_mark (illust : Illust) : string :=
  if String.eqb (default "illust" (type illust)) "ugoira" then "🎞️ " else "".

Definition page_info (illust : Illust) : string :=
  if page_count illust >? 1
  then " (" +:+ str (page_count illust) +:+ "P)" else "".

Definition match_line (illust : Illust) : string :=
  match match_score illust with
  | Some score => "🎯 匹配度: " +:+ format_0f W (score * 100)%float +:+ "%" +:+ nl
  | None => ""
  end.

Definition long_mark (illust : Illust) : string :=
  if page_count illust >? max_pages self then "📚 " else "".

(** [format_message] *)
Definition format_message (illust : Illust) : string :=
  long_mark illust +:+ r18_mark illust +:+ ugoira_mark illust
    +:+ "🎨 " +:+ title illust +:+ page_info illust +:+ nl
  +:+ "👤 " +:+ user_name illust +:+ nl
  +:+ "❤️ " +:+ str (bookmark_count illust) +:+ nl
  +:+ match_line illust
  +:+ "🏷️ " +:+ tags_text illust +:+ nl
  +:+ "🔗 https://pixiv.net/i/" +:+ str (id illust) +:+ nl +:+ nl
  +:+ "回复 " +:+ str (id illust) +:+ " 1=喜欢 2=不喜欢".

(** Steps 1 and 2 of the [try] block of [send]: the image segment (the
    encoded cover, or the mirror link when there is none to embed), then
    the caption. *)
Definition build_chain (illust : Illust) : M (list segment) :=
  message_chain <-
    match image_urls illust with
    | cover_url :: _ =>
        img_b64 <- _download_and_encode_image cover_url ;;
        match img_b64 with
        | Some b64 =>
            if String.eqb b64 "" then
              ret [Image_url (get_pixiv_cat_url W (id illust))]
            else ret [Image_base64 b64]
        | None => ret [Image_url (get_pixiv_cat_url W (id illust))]
        end
    | [] => ret []
    end ;;
  let text := format_message illust in
  ret (message_chain ++ [Plain text]).

(** [success_ids.append(illust.id)] *)
Definition append_success (i : Z) : M unit :=
  fun st => (Returns tt, set_success_ids (success_ids st ++ [i]) st).

(** [self._message_illust_map[msg_id] = illust.id] *)
Definition map_store (msg_id : json) (i : Z) : M unit :=
  key <- lift (hash_key msg_id) ;;
  fun st => (Returns tt, set_map (<[key := i]> (_message_illust_map st)) st).

(** The [if result:] statement of [send]. *)
Definition record_result (illust : Illust) (result : json) : M unit :=
  if truthy result then
    append_success (id illust) ;;
    first <- lift (py_get result "message_id") ;;
    msg_id <- (if truthy first then ret first
               else lift (py_get result "msg_id")) ;;
    if truthy msg_id then map_store msg_id (id illust) else ret tt
  else ret tt.

(** The [try] block of [send], for one record. *)
Definition send_try (illust : Illust) : M unit :=
  message_chain <- build_chain illust ;;
  result <- _post_message message_chain ;;
  record_result illust result ;;
  asyncio_sleep 1.

(** One turn of the [for] loop: the [try] block and its handler. *)
Definition send_one (illust : Illust) : M unit :=
  try_except (send_try illust) (fun e => Some (log ERROR)).

Fixpoint send_loop (illusts : list Illust) : M unit :=
  match illusts with
  | [] => ret tt
  | illust :: rest => send_one illust ;; send_loop rest
  end.

(** [send] *)
Definition send (illusts : list Illust) : M (list Z) :=
  match illusts with
  | [] => ret []
  | _ :: _ =>
      (fun st => (Returns tt, set_success_ids [] st)) ;;
      send_loop illusts ;;
      log INFO ;;
      fun st => (Returns (success_ids st), st)
  end.

(** The text [send_text] posts: the buttons, when there are any, become a
    bulleted list of their labels under the text. *)
Definition text_with_buttons (text : string)
    (buttons : option (list (string * string))) : string :=
  match buttons with
  | Some ((_ :: _) as buttons) =>
      text +:+ (nl +:+ nl +:+
                join nl (map (fun '(label, _) => "• " +:+ label) buttons))
  | Some [] | None => text
  end.

(** [send_text] *)
Definition send_text (text : string) (buttons : option (list (string * string)))
  : M bool :=
  let message_chain := [Plain (text_with_buttons text buttons)] in
  result <- _post_message message_chain ;;
  ret (match result with JNull => false | _ => true end).

(** [await self.on_feedback(illust_id, action)] *)
Definition call_feedback (cb : Z -> string -> outcome unit)
    (illust_id : Z) (action : string) : M unit :=
  fun st => (cb illust_id action, emit (EvFeedback illust_id action) st).

(** [handle_feedback] *)
Definition handle_feedback (illust_id : Z) (action : string) : M bool :=
  match on_feedback self with
  | Some cb => call_feedback cb illust_id action
  | None => ret tt
  end ;;
  ret true.

End Notifier.

(** The state [send] is in when it has gone through the records [done] of
    its batch. *)
Definition state_before (W : World) (self : AstrBotNotifier)
    (done : list Illust) (st : store) : store :=
  (send_loop W self done (set_success_ids [] st)).2.

(* ===================================================================== *)
(** ** Reading a delivery *)
(* ===================================================================== *)

(** What [_post_message] makes of the gateway's answer: the parsed body on
    a 200, [None] on another status or on a transport error, and any other
    exception passed on. *)
Definition absorb (o : outcome json) : outcome json :=
  match o with
  | Raises ClientError | Raises TimeoutError => Returns JNull
  | _ => o
  end.

Definition delivery_result (answer : outcome response) : outcome json :=
  absorb (resp <~ answer ;;
          if status resp =? 200 then json_body resp
          else _ <~ text_body resp ;; Returns JNull).

(** [send] counts a record as delivered when the result is truthy. *)
Definition delivered (answer : outcome response) : bool :=
  match delivery_result answer with
  | Returns result => truthy result
  | Raises _ => false
  end.

(** The message identifier [send] reads in a result: the value under
    ["message_id"] when it is truthy, else the value under ["msg_id"] when
    that one is; in both cases as the dict key it makes. *)
Definition reported_id (result : json) : option pykey :=
  match result with
  | JObj fields =>
      let msg_id := py_or (assoc_get "message_id" fields)
                          (assoc_get "msg_id" fields) in
      if truthy msg_id then
        match hash_key msg_id with
        | Returns key => Some key
        | Raises _ => None
        end
      else None
  | _ => None
  end.

(** The entry a record and the answer to its POST leave in the map. *)
Definition correlation_entry (p : Illust * outcome response)
  : option (pykey * Z) :=
  match delivery_result p.2 with
  | Returns result =>
      if truthy result then (fun key => (key, id p.1)) <$> reported_id result
      else None
  | Raises _ => None
  end.

Definition insert_entry (m : gmap pykey Z) (e : pykey * Z) : gmap pykey Z :=
  <[e.1 := e.2]> m.

(** Answers of the gateway: a 200 with a given parsed body, and a status
    other than 200. *)
Definition answers_200 (body : json) (answer : outcome response) : Prop :=
  ∃ resp, answer = Returns resp ∧ status resp = 200
          ∧ json_body resp = Returns body.

Definition answers_other_status (answer : outcome response) : Prop :=
  ∃ resp, answer = Returns resp ∧ status resp ≠ 200.

(** The log lines [_post_message] writes for an answer. *)
Definition delivery_logs (answer : outcome response) : list event :=
  match answer with
  | Returns resp =>
      if status resp =? 200 then
        match json_body resp with
        | Returns _ => [EvLog DEBUG]
        | Raises (OtherException _) => []
        | Raises _ => [EvLog ERROR]
        end
      else
        match text_body resp with
        | Raises (OtherException _) => []
        | _ => [EvLog ERROR]
        end
  | Raises (OtherException _) => []
  | Raises _ => [EvLog ERROR]
  end.

(** What [_download_and_encode_image] makes of the image host's answer,
    and the warning it logs when it swallows an exception. *)
Definition encoded (W : World) (self : AstrBotNotifier)
    (answer : outcome (option (list Byte.byte))) : option string :=
  match answer with
  | Returns (Some ((_ :: _) as image_data)) =>
      match compress_image W self image_data with
      | Returns b64 => Some b64
      | Raises _ => None
      end
  | _ => None
  end.

Definition encode_logs (W : World) (self : AstrBotNotifier)
    (answer : outcome (option (list Byte.byte))) : list event :=
  match answer with
  | Returns (Some ((_ :: _) as image_data)) =>
      match compress_image W self image_data with
      | Returns _ => []
      | Raises _ => [EvLog WARNING]
      end
  | Returns _ => []
  | Raises _ => [EvLog WARNING]
  end.

(** How the [if result:] statement of [send] ends: it raises when the
    result is truthy and not a dict ([AttributeError]), or when the
    identifier read in it is unhashable ([TypeError]). *)
Definition record_outcome (result : json) : outcome unit :=
  match result with
  | JObj fields =>
      let msg_id := py_or (assoc_get "message_id" fields)
                          (assoc_get "msg_id" fields) in
      if truthy result && truthy msg_id then
        _ <~ hash_key msg_id ;; Returns tt
      else Returns tt
  | _ =>
      if truthy result then Raises (OtherException "AttributeError")
      else Returns tt
  end.

(** Whether the [try] block of [send] runs to its end on an answer. *)
Definition completes (answer : outcome response) : bool :=
  match (result <~ delivery_result answer ;; record_outcome result) with
  | Returns _ => true
  | Raises _ => false
  end.

Section Reading.

Context (W : World) (self : AstrBotNotifier).

(** For a record that [send] starts on in state [st]: what the image
    host answers about its cover, the events of step 1, the chain built,
    and what the gateway answers to it. *)
Definition cover_answer (url : string) (st : store)
  : outcome (option (list Byte.byte)) :=
  download_image_with_referer W (count_downloads (events st)) url.

Definition cover_events (illust : Illust) (st : store) : list event :=
  match image_urls illust with
  | url :: _ =>
      EvDownload url (cover_answer url st)
        :: encode_logs W self (cover_answer url st)
  | [] => []
  end.

Definition cover_segments (illust : Illust) (st : store) : list segment :=
  match image_urls illust with
  | url :: _ =>
      match encoded W self (cover_answer url st) with
      | Some b64 =>
          if String.eqb b64 "" then
            [Image_url (get_pixiv_cat_url W (id illust))]
          else [Image_base64 b64]
      | None => [Image_url (get_pixiv_cat_url W (id illust))]
      end
  | [] => []
  end.

Definition chain_of (illust : Illust) (st : store) : list segment :=
  cover_segments illust st ++ [Plain (format_message W self illust)].

Definition answer_of (illust : Illust) (st : store) : outcome response :=
  session_post W (count_posts (events st))
    (request_of self (chain_of illust st)).

End Reading.

Definition is_image (s : segment) : bool :=
  match s with
  | Plain _ => false
  | Image_base64 _ | Image_url _ => true
  end.

(* ===================================================================== *)
(** ** Concrete worlds and records, for the examples *)
(* ===================================================================== *)

Definition ok_response (body : json) : response :=
  {| status := 200; json_body := Returns body; text_body := Returns "" |}.

Definition error_response (code : Z) : response :=
  {| status := code;
     json_body := Raises (OtherException "JSONDecodeError");
     text_body := Returns "error" |}.

(** A 200 whose body is not JSON: [resp.json()] raises. *)
Definition garbled_response : response :=
  {| status := 200;
     json_body := Raises (OtherException "JSONDecodeError");
     text_body := Returns "<html>" |}.

(** A world whose images are a mode and a size; opening reads the mode off
    the first byte ([x50] is a palette image, [x00] is not an image) and
    every later Pillow step works.  The gateway and the image host are
    given. *)
Definition toy_world
    (gateway : nat -> request -> outcome response)
    (host : nat -> string -> outcome (option (list Byte.byte))) : World :=
  {| image := string * (Z * Z);
     Image_open := fun data =>
       match data with
       | Byte.x50 :: _ => Returns ("P", (2000, 1000))
       | Byte.x00 :: _ => Raises (OtherException "UnidentifiedImageError")
       | _ => Returns ("RGB", (640, 480))
       end;
     Image_new := fun m sz _ => Returns (m, sz);
     img_mode := fst;
     img_size := snd;
     img_convert := fun img m => Returns (m, img.2);
     img_split := fun img => Returns [img; img; img; img];
     img_paste := fun bg _ _ => Returns bg;
     img_thumbnail := fun img box => Returns (img.1, box);
     img_save := fun img _ => Returns [Byte.xff; Byte.xd8];
     b64encode := fun _ => "/9g=";
     format_0f := fun _ => "87";
     get_pixiv_cat_url := fun i => "https://pixiv.cat/" +:+ str i +:+ ".jpg";
     download_image_with_referer := host;
     session_post := gateway |}.

Definition bot : AstrBotNotifier :=
  {| http_url := "http://127.0.0.1:6185";
     unified_msg_origin := "QQOfficial:group:123456";
     api_key := None;
     on_feedback := None;
     max_pages := 10;
     image_quality := 85;
     max_image_size := 1500 |}.

Definition illust_of (i : Z) (pages : Z) (urls : list string) : Illust :=
  {| id := i; title := "sky"; user_name := "ann"; bookmark_count := 12;
     tags := ["a"; "b"; "c"; "d"; "e"; "f"]; page_count := pages;
     type := None; is_r18 := false; match_score := None;
     image_urls := urls |}.

(** The image host is down. *)
Definition host_down : nat -> string -> outcome (option (list Byte.byte)) :=
  fun _ _ => Returns None.

(** A gateway that gives every delivery the same answer. *)
Definition always (answer : outcome response)
  : nat -> request -> outcome response :=
  fun _ _ => answer.

(** The gateway refuses the second delivery of a batch of three. *)
Definition second_refused : nat -> request -> outcome response :=
  fun n _ =>
    if (n =? 1)%nat then Returns (error_response 500)
    else Returns (ok_response (JObj [("message_id", JNum (42 + Z.of_nat n))])).

(** The gateway answers the first delivery with a 200 whose body is not
    JSON, and the later ones properly. *)
Definition first_garbled : nat -> request -> outcome response :=
  fun n _ =>
    if (n =? 0)%nat then Returns garbled_response
    else Returns (ok_response (JObj [("message_id", JNum 5)])).

(** A notifier whose feedback callback fails. *)
Definition bot_failing_callback : AstrBotNotifier :=
  {| http_url := http_url bot;
     unified_msg_origin := unified_msg_origin bot;
     api_key := api_key bot;
     on_feedback := Some (fun _ _ => Raises (OtherException "RuntimeError"));
     max_pages := max_pages bot;
     image_quality := image_quality bot;
     max_image_size := max_image_size bot |}.

(** A notifier whose feedback callback works. *)
Definition bot_with_callback : AstrBotNotifier :=
  {| http_url := http_url bot;
     unified_msg_origin := unified_msg_origin bot;
     api_key := api_key bot;
     on_feedback := Some (fun _ _ => Returns tt);
     max_pages := max_pages bot;
     image_quality := image_quality bot;
     max_image_size := max_image_size bot |}.

Definition world_second_refused : World := toy_world second_refused host_down.

Definition world_first_garbled : World := toy_world first_garbled host_down.

(** The gateway answers every delivery 200 with the body [{}]. *)
Definition world_empty_body : World :=
  toy_world (always (Returns (ok_response (JObj [])))) host_down.

(** The gateway answers every delivery 200 with [{"message_id": 0}]. *)
Definition world_zero_id : World :=
  toy_world (always (Returns (ok_response (JObj [("message_id", JNum 0)]))))
            host_down.

(** The image host serves bytes that are not an image. *)
Definition world_bad_image : World :=
  toy_world second_refused (fun _ _ => Returns (Some [Byte.x00])).

Definition batch_of_three : list Illust :=
  [illust_of 1 1 ["u"]; illust_of 2 1 []; illust_of 3 12 ["v"]].

(** The answers [send] got to the POSTs of a batch, and the entries they
    leave in the correlation map. *)
Definition new_answers (W : World) (self : AstrBotNotifier)
    (illusts : list Illust) (st : store) : list (outcome response) :=
  drop (count_posts (events st))
       (answers (events (send W self illusts st).2)).

Definition new_entries (W : World) (self : AstrBotNotifier)
    (illusts : list Illust) (st : store) : list (pykey * Z) :=
  omap correlation_entry (zip illusts (new_answers W self illusts st)).

(** The chains [send] posted for a batch. *)
Definition new_posts (W : World) (self : AstrBotNotifier)
    (illusts : list Illust) (st : store) : list (list segment) :=
  drop (count_posts (events st))
       (posts (events (send W self illusts st).2)).

(** The page-count suffix of a title. *)
Definition page_suffix (n : Z) : string := " (" +:+ str n +:+ "P)".

(* ===================================================================== *)
(** ** Reading a caption *)
(* ===================================================================== *)

(** [sub in s] *)
Definition contains (sub s : string) : Prop :=
  ∃ pre post, s = pre +:+ sub +:+ post.

(** [c in s], for a single character. *)
Fixpoint occurs (c : Ascii.ascii) (s : string) : bool :=
  match s with
  | "" => false
  | String c' rest => Ascii.eqb c c' || occurs c rest
  end.

Definition open_paren : Ascii.ascii := Ascii.ascii_of_nat 40.

(** A record none of whose free texts (title, author, tags shown, rendered
    score) has an opening parenthesis. *)
Definition no_paren_in_texts (W : World) (illust : Illust) : Prop :=
  occurs open_paren (title illust) = false
  ∧ occurs open_paren (user_name illust) = false
  ∧ Forall (λ t, occurs open_paren t = false) (take 5 (tags illust))
  ∧ (∀ score, match_score illust = Some score →
       occurs open_paren (format_0f W (score * 100)%float) = false).

(* ===================================================================== *)
(** ** More readings of the trace and of the world *)
(* ===================================================================== *)

(** The requests posted so far and the URLs fetched so far, oldest
    first. *)
Fixpoint requests (tr : list event) : list request :=
  match tr with
  | [] => []
  | EvPost r _ :: tr' => r :: requests tr'
  | _ :: tr' => requests tr'
  end.

Fixpoint downloads (tr : list event) : list string :=
  match tr with
  | [] => []
  | EvDownload url _ :: tr' => url :: downloads tr'
  | _ :: tr' => downloads tr'
  end.

(** The requests [send] posted for a batch. *)
Definition new_requests (W : World) (self : AstrBotNotifier)
    (illusts : list Illust) (st : store) : list request :=
  drop (count_posts (events st))
       (requests (events (send W self illusts st).2)).

(** [n] slashes, and whether a string ends in one. *)
Fixpoint slashes (n : nat) : string :=
  match n with
  | O => ""
  | S n' => String (Ascii.ascii_of_nat 47) (slashes n')
  end.

Fixpoint ends_with_slash (s : string) : bool :=
  match s with
  | "" => false
  | String c "" => Ascii.eqb c (Ascii.ascii_of_nat 47)
  | String _ rest => ends_with_slash rest
  end.

(** What the notifier relies on from Pillow: [convert] gives the mode
    asked for and keeps the size, [Image.new] gives the mode and size asked
    for, [paste] keeps the mode and size of the background, [thumbnail]
    keeps the mode and fits the image in the box. *)
Definition pillow_contract (W : World) : Prop :=
  (∀ img m img', img_convert W img m = Returns img' →
     img_mode W img' = m ∧ img_size W img' = img_size W img)
  ∧ (∀ m sz colour bg, Image_new W m sz colour = Returns bg →
       img_mode W bg = m ∧ img_size W bg = sz)
  ∧ (∀ bg img mask bg', img_paste W bg img mask = Returns bg' →
       img_mode W bg' = img_mode W bg ∧ img_size W bg' = img_size W bg)
  ∧ (∀ img box img', img_thumbnail W img box = Returns img' →
       img_mode W img' = img_mode W img
       ∧ (img_size W img').1 ≤ box.1 ∧ (img_size W img').2 ≤ box.2).

(** A request that goes where the notifier is configured to post, with
    the headers [_post_message] sets. *)
Definition well_addressed (self : AstrBotNotifier) (r : request) : Prop :=
  req_url r = http_url self +:+ "/api/v1/send"
  ∧ req_origin r = unified_msg_origin self
  ∧ req_timeout r = 30
  ∧ ("Content-Type", "application/json") ∈ req_headers r
  ∧ (∀ v, ("Authorization", v) ∈ req_headers r
          ↔ ∃ key, api_key self = Some key ∧ key ≠ ""
                   ∧ v = "Bearer " +:+ key).

(** Two states the outside world cannot tell apart, with the same map. *)
Definition alike (st1 st2 : store) : Prop :=
  count_posts (events st1) = count_posts (events st2)
  ∧ count_downloads (events st1) = count_downloads (events st2)
  ∧ _message_illust_map st1 = _message_illust_map st2.

Definition space : Ascii.ascii := Ascii.ascii_of_nat 32.

(** The gateway is unreachable. *)
Definition world_unreachable : World :=
  toy_world (always (Raises ClientError)) host_down.

(** The image host serves a palette image of 2000 by 1000. *)
Definition world_palette_image : World :=
  toy_world second_refused (fun _ _ => Returns (Some [Byte.x50])).

(** Every delivery is answered with the same message identifier. *)
Definition world_same_id : World :=
  toy_world (always (Returns (ok_response (JObj [("message_id", JNum 9)]))))
            host_down.

Definition bot_with_key : AstrBotNotifier :=
  {| http_url := http_url bot;
     unified_msg_origin := unified_msg_origin bot;
     api_key := Some "s3cret";
     on_feedback := on_feedback bot;
     max_pages := max_pages bot;
     image_quality := image_quality bot;
     max_image_size := max_image_size bot |}.

(* ===================================================================== *)
(** ** Traces *)
(* ===================================================================== *)

Lemma posts_app tr1 tr2 : posts (tr1 ++ tr2) = posts tr1 ++ posts tr2.
Proof.
  induction tr1 as [|[] tr1 IH]; simpl; [done|..]; by rewrite ?IH.
Qed.

Lemma answers_app tr1 tr2 : answers (tr1 ++ tr2) = answers tr1 ++ answers tr2.
Proof.
  induction tr1 as [|[] tr1 IH]; simpl; [done|..]; by rewrite ?IH.
Qed.

Lemma pauses_app tr1 tr2 : pauses (tr1 ++ tr2) = pauses tr1 ++ pauses tr2.
Proof.
  induction tr1 as [|[] tr1 IH]; simpl; [done|..]; by rewrite ?IH.
Qed.

Lemma count_posts_app tr1 tr2 :
  count_posts (tr1 ++ tr2) = (count_posts tr1 + count_posts tr2)%nat.
Proof. unfold count_posts. by rewrite posts_app, length_app. Qed.

Lemma length_answers tr : length (answers tr) = count_posts tr.
Proof.
  unfold count_posts. induction tr as [|[] tr IH]; simpl; by rewrite ?IH.
Qed.

Lemma posts_delivery_logs a : posts (delivery_logs a) = [].
Proof. unfold delivery_logs. by repeat case_match. Qed.

Lemma answers_delivery_logs a : answers (delivery_logs a) = [].
Proof. unfold delivery_logs. by repeat case_match. Qed.

Lemma pauses_delivery_logs a : pauses (delivery_logs a) = [].
Proof. unfold delivery_logs. by repeat case_match. Qed.

Arguments send_loop : simpl never.
Arguments send_one : simpl never.
Arguments state_before : simpl never.

Section NotifierFacts.

Context (W : World) (self : AstrBotNotifier).

Lemma posts_encode_logs a : posts (encode_logs W self a) = [].
Proof. unfold encode_logs. by repeat case_match. Qed.

Lemma answers_encode_logs a : answers (encode_logs W self a) = [].
Proof. unfold encode_logs. by repeat case_match. Qed.

Lemma pauses_encode_logs a : pauses (encode_logs W self a) = [].
Proof. unfold encode_logs. by repeat case_match. Qed.

(* ===================================================================== *)
(** ** The coroutines, one by one *)
(* ===================================================================== *)

Lemma _ensure_session_eq st :
  _ensure_session st = (Returns tt, set_session SessionOpen st).
Proof.
  unfold _ensure_session, set_session.
  destruct (_session st) eqn:E; try done.
  by rewrite <- E.
Qed.

(** [_post_message] issues one request and turns the answer into its
    result; only the session and the trace change. *)
Lemma _post_message_eq message_chain st :
  let answer :=
    session_post W (count_posts (events st)) (request_of self message_chain) in
  _post_message W self message_chain st =
    (delivery_result answer,
     emit_all (EvPost (request_of self message_chain) answer
                 :: delivery_logs answer)
              (set_session SessionOpen st)).
Proof.
  intros answer. unfold _post_message, bind at 1.
  rewrite _ensure_session_eq.
  unfold try_except, bind, post, lift, log, ret, emit, emit_all,
    delivery_result, delivery_logs, absorb, obind; simpl.
  fold answer. destruct answer as [resp|[| |cls]]; simpl;
    rewrite <- ?app_assoc; try done.
  destruct (status resp =? 200).
  - destruct (json_body resp) as [j|[| |cls]]; simpl;
      by rewrite <- ?app_assoc.
  - destruct (text_body resp) as [t|[| |cls]]; simpl;
      by rewrite <- ?app_assoc.
Qed.

(** [_download_and_encode_image] never raises: whatever the host answers
    and whatever Pillow does, it returns, with [None] for every failure. *)
Lemma _download_and_encode_image_eq url st :
  let answer :=
    download_image_with_referer W (count_downloads (events st)) url in
  _download_and_encode_image W self url st =
    (Returns (encoded W self answer),
     emit_all (EvDownload url answer :: encode_logs W self answer)
              (set_session SessionOpen st)).
Proof.
  intros answer. unfold _download_and_encode_image, try_except, bind at 1.
  rewrite _ensure_session_eq.
  unfold bind, fetch, lift, log, ret, emit, emit_all, encoded, encode_logs;
    simpl.
  fold answer. destruct answer as [[[|b data]|]|e]; simpl;
    rewrite <- ?app_assoc; try done.
  destruct (compress_image W self (b :: data)); simpl;
    by rewrite <- ?app_assoc.
Qed.
Lemma posts_cover_events illust st : posts (cover_events W self illust st) = [].
Proof.
  unfold cover_events. destruct (image_urls illust); simpl;
    by rewrite ?posts_encode_logs.
Qed.

Lemma answers_cover_events illust st :
  answers (cover_events W self illust st) = [].
Proof.
  unfold cover_events. destruct (image_urls illust); simpl;
    by rewrite ?answers_encode_logs.
Qed.

Lemma pauses_cover_events illust st :
  pauses (cover_events W self illust st) = [].
Proof.
  unfold cover_events. destruct (image_urls illust); simpl;
    by rewrite ?pauses_encode_logs.
Qed.

(** Steps 1 and 2 always give a chain. *)
Lemma build_chain_eq illust st :
  build_chain W self illust st =
    (Returns (chain_of W self illust st),
     match image_urls illust with
     | [] => st
     | _ :: _ => emit_all (cover_events W self illust st)
                          (set_session SessionOpen st)
     end).
Proof.
  unfold build_chain, chain_of, cover_segments, cover_events, cover_answer.
  destruct (image_urls illust) as [|url urls]; [done|].
  unfold bind at 1. unfold bind at 1.
  rewrite _download_and_encode_image_eq. cbv zeta.
  destruct (encoded W self _) as [b64|]; [|done].
  by destruct (String.eqb b64 "").
Qed.

(** The [if result:] statement changes the list of successes and the map,
    and nothing else. *)
Lemma record_result_eq illust result st :
  record_result illust result st =
    (record_outcome result,
     {| _session := _session st;
        _message_illust_map :=
          match (if truthy result then reported_id result else None) with
          | Some key => <[key := id illust]> (_message_illust_map st)
          | None => _message_illust_map st
          end;
        events := events st;
        success_ids :=
          success_ids st ++ (if truthy result then [id illust] else []) |}).
Proof.
  unfold record_result, record_outcome. destruct (truthy result) eqn:Ht.
  2:{ unfold ret. rewrite app_nil_r. by destruct result. }
  unfold bind at 1, append_success.
  destruct result as [|b|n|s|items|fields];
    try (unfold bind, lift, py_get; simpl; reflexivity).
  unfold bind, lift, py_get, reported_id, py_or, obind; simpl.
  destruct (truthy (assoc_get "message_id" fields)) eqn:H1; simpl.
  - rewrite H1. unfold map_store, bind, lift.
    by destruct (hash_key _).
  - destruct (truthy (assoc_get "msg_id" fields)) eqn:H2; simpl; [|done].
    unfold map_store, bind, lift.
    by destruct (hash_key _).
Qed.

Lemma count_posts_after_cover illust st :
  count_posts
    (events match image_urls illust with
            | [] => st
            | _ :: _ => emit_all (cover_events W self illust st)
                                 (set_session SessionOpen st)
            end) = count_posts (events st).
Proof.
  destruct (image_urls illust) eqn:E; [done|]. simpl.
  unfold count_posts. by rewrite posts_app, posts_cover_events, app_nil_r.
Qed.

(** One turn of the loop, in full: it always returns, and the state it
    leaves is read off the gateway's answer. *)
Lemma send_one_eq illust st :
  let answer := answer_of W self illust st in
  send_one W self illust st =
    (Returns tt,
     {| _session := SessionOpen;
        _message_illust_map :=
          match correlation_entry (illust, answer) with
          | Some (key, i) => <[key := i]> (_message_illust_map st)
          | None => _message_illust_map st
          end;
        events :=
          events st ++ cover_events W self illust st
            ++ EvPost (request_of self (chain_of W self illust st)) answer
            :: delivery_logs answer
            ++ [if completes answer then EvSleep 1 else EvLog ERROR];
        success_ids :=
          success_ids st ++ (if delivered answer then [id illust] else []) |}).
Proof.
  intros answer. unfold send_one, try_except, send_try.
  unfold bind at 1. rewrite build_chain_eq.
  unfold bind at 1. rewrite _post_message_eq. cbv zeta.
  rewrite count_posts_after_cover. fold (answer_of W self illust st).
  fold answer. unfold correlation_entry, delivered, completes. simpl.
  destruct (delivery_result answer) as [result|e]; simpl.
  2:{ unfold log, emit. simpl.
      destruct (image_urls illust) eqn:E; simpl.
      - unfold cover_events. rewrite E. simpl.
        by rewrite <- ?app_assoc, app_nil_r.
      - by rewrite <- ?app_assoc, app_nil_r. }
  unfold bind at 1. rewrite record_result_eq. simpl.
  assert (Hmap : ∀ m : gmap pykey Z,
    match (if truthy result then reported_id result else None) with
    | Some key => <[key := id illust]> m
    | None => m
    end =
    match (if truthy result
           then (λ key, (key, id illust)) <$> reported_id result
           else None) : option (pykey * Z) with
    | Some (key, i) => <[key := i]> m
    | None => m
    end).
  { intros m. destruct (truthy result); [|done].
    by destruct (reported_id result). }
  destruct (record_outcome result) as [[]|e]; simpl;
    unfold asyncio_sleep, log, emit; simpl; rewrite Hmap;
    destruct (image_urls illust) eqn:E; simpl;
    unfold cover_events; rewrite ?E; simpl;
    by rewrite <- ?app_assoc.
Qed.

Lemma send_try_outcome illust st :
  (send_try W self illust st).1 =
    match completes (answer_of W self illust st) with
    | true => Returns tt
    | false =>
        match (result <~ delivery_result (answer_of W self illust st) ;;
               record_outcome result) with
        | Raises e => Raises e
        | Returns _ => Returns tt
        end
    end.
Proof.
  unfold send_try.
  unfold bind at 1. rewrite build_chain_eq.
  unfold bind at 1. rewrite _post_message_eq. cbv zeta.
  rewrite count_posts_after_cover. fold (answer_of W self illust st).
  unfold completes.
  destruct (delivery_result _) as [result|e]; simpl; [|done].
  unfold bind at 1. rewrite record_result_eq.
  by destruct (record_outcome result) as [[]|e].
Qed.

(* ===================================================================== *)
(** ** The loop *)
(* ===================================================================== *)

Lemma send_loop_cons illust rest st :
  send_loop W self (illust :: rest) st =
    send_loop W self rest (send_one W self illust st).2.
Proof.
  change (send_loop W self (illust :: rest))
    with (send_one W self illust ;; send_loop W self rest).
  unfold bind. by rewrite send_one_eq.
Qed.

(** The loop never raises. *)
Lemma send_loop_returns illusts st :
  (send_loop W self illusts st).1 = Returns tt.
Proof.
  revert st. induction illusts as [|illust rest IH]; intros st; [done|].
  by rewrite send_loop_cons.
Qed.

Lemma send_loop_app l1 l2 st :
  send_loop W self (l1 ++ l2) st =
    send_loop W self l2 (send_loop W self l1 st).2.
Proof.
  revert st. induction l1 as [|illust l1 IH]; intros st; [done|].
  rewrite <- app_comm_cons, !send_loop_cons. apply IH.
Qed.

Lemma state_before_snoc done illust st :
  state_before W self (done ++ [illust]) st =
    (send_one W self illust (state_before W self done st)).2.
Proof.
  unfold state_before. rewrite send_loop_app. by rewrite send_loop_cons.
Qed.

Lemma state_before_app done rest st :
  state_before W self (done ++ rest) st =
    (send_loop W self rest (state_before W self done st)).2.
Proof. unfold state_before. by rewrite send_loop_app. Qed.

(** [send] on a batch that is not empty: the loop, the summary line, the
    list of successes. *)
Lemma send_eq illust rest st :
  send W self (illust :: rest) st =
    (Returns (success_ids (state_before W self (illust :: rest) st)),
     emit (EvLog INFO) (state_before W self (illust :: rest) st)).
Proof.
  unfold send, state_before. unfold bind at 1. unfold bind at 1.
  pose proof (send_loop_returns (illust :: rest) (set_success_ids [] st)) as Hr.
  destruct (send_loop W self (illust :: rest) (set_success_ids [] st))
    as [o st'] eqn:E.
  simpl in Hr. subst o. reflexivity.
Qed.

(** The loop issues one POST per record, in order, each chain ending in
    the caption of its record; the image segment, when there is one, comes
    before it. *)
Lemma chain_of_shape illust st :
  ∃ imgs, chain_of W self illust st
          = imgs ++ [Plain (format_message W self illust)]
          ∧ forallb is_image imgs = true ∧ (length imgs ≤ 1)%nat.
Proof.
  unfold chain_of, cover_segments. eexists; split; [reflexivity|].
  repeat case_match; simpl; split; (done || lia).
Qed.

Lemma send_loop_posts illusts st :
  ∃ chains,
    posts (events (send_loop W self illusts st).2)
      = posts (events st) ++ chains
    ∧ Forall2 (λ illust chain,
         ∃ imgs, chain = imgs ++ [Plain (format_message W self illust)]
                 ∧ forallb is_image imgs = true)
        illusts chains.
Proof.
  revert st. induction illusts as [|illust rest IH]; intros st.
  - exists []. simpl. by rewrite app_nil_r.
  - rewrite send_loop_cons. destruct (IH (send_one W self illust st).2)
      as (chains & Hposts & Hall).
    exists (chain_of W self illust st :: chains). split.
    + rewrite Hposts, send_one_eq. simpl.
      rewrite !posts_app, posts_cover_events. simpl.
      rewrite posts_app, posts_delivery_logs. simpl.
      destruct (completes _); simpl; by rewrite <- app_assoc.
    + constructor; [|done].
      destruct (chain_of_shape illust st) as (imgs & ? & ? & ?). eauto.
Qed.

(** The answers the loop gets, and what it keeps of them: the map takes
    the entries the answers leave, in order, and the list of successes
    takes the delivered records. *)
Lemma send_loop_answers illusts st :
  ∃ ans,
    answers (events (send_loop W self illusts st).2)
      = answers (events st) ++ ans
    ∧ length ans = length illusts
    ∧ _message_illust_map (send_loop W self illusts st).2
      = foldl insert_entry (_message_illust_map st)
          (omap correlation_entry (zip illusts ans))
    ∧ (∀ i a, ans !! i = Some a →
         ∃ r, a = session_post W (count_posts (events st) + i) r).
Proof.
  revert st. induction illusts as [|illust rest IH]; intros st.
  - exists []. simpl. by rewrite app_nil_r.
  - rewrite send_loop_cons. destruct (IH (send_one W self illust st).2)
      as (ans & Hans & Hlen & Hmap & Hidx).
    exists (answer_of W self illust st :: ans). split; [|split; [|split]].
    + rewrite Hans, send_one_eq. simpl.
      rewrite !answers_app, answers_cover_events. simpl.
      rewrite answers_app, answers_delivery_logs. simpl.
      destruct (completes _); simpl; by rewrite <- app_assoc.
    + simpl. by rewrite Hlen.
    + rewrite Hmap, send_one_eq. simpl.
      by destruct (correlation_entry _) as [[key i]|].
    + intros [|i] a Ha; simpl in Ha.
      * inversion Ha; subst. rewrite Nat.add_0_r. by eexists.
      * destruct (Hidx i a Ha) as [r Hr]. exists r. rewrite Hr.
        rewrite send_one_eq. simpl.
        rewrite !count_posts_app. unfold count_posts at 2 3.
        rewrite posts_cover_events. simpl.
        rewrite posts_app, posts_delivery_logs. simpl.
        f_equal. destruct (completes _); simpl; lia.
Qed.

(** The identifiers the loop appends are those of a subsequence of its
    records. *)
Lemma send_loop_success_ids illusts st :
  ∃ ids, success_ids (send_loop W self illusts st).2 = success_ids st ++ ids
         ∧ ids `sublist_of` (id <$> illusts).
Proof.
  revert st. induction illusts as [|illust rest IH]; intros st.
  - exists []. simpl. by rewrite app_nil_r.
  - rewrite send_loop_cons. destruct (IH (send_one W self illust st).2)
      as (ids & Hids & Hsub).
    rewrite Hids, send_one_eq. simpl.
    destruct (delivered _).
    + exists (id illust :: ids). rewrite <- app_assoc. split; [done|].
      by apply sublist_skip.
    + exists ids. rewrite app_nil_r. split; [done|]. by apply sublist_cons.
Qed.

Lemma count_posts_send_one illust st :
  count_posts (events (send_one W self illust st).2)
    = S (count_posts (events st)).
Proof.
  rewrite send_one_eq. simpl.
  rewrite !count_posts_app. unfold count_posts at 2 3.
  rewrite posts_cover_events. simpl.
  rewrite posts_app, posts_delivery_logs. simpl.
  destruct (completes _); simpl; lia.
Qed.

Lemma success_ids_send_one illust st :
  success_ids (send_one W self illust st).2
    = success_ids st
        ++ (if delivered (answer_of W self illust st) then [id illust] else []).
Proof. by rewrite send_one_eq. Qed.

Lemma events_send_loop_prefix illusts st :
  events st `prefix_of` events (send_loop W self illusts st).2.
Proof.
  revert st. induction illusts as [|illust rest IH]; intros st; [done|].
  rewrite send_loop_cons. etrans; [|apply IH].
  rewrite send_one_eq. simpl. by eexists.
Qed.

Lemma send_nonempty illusts st :
  illusts ≠ [] →
  send W self illusts st =
    (Returns (success_ids (state_before W self illusts st)),
     emit (EvLog INFO) (state_before W self illusts st)).
Proof. destruct illusts; [done|]. intros _. apply send_eq. Qed.

End NotifierFacts.

Lemma delivered_200 body answer :
  answers_200 body answer → delivered answer = truthy body.
Proof.
  intros (resp & -> & Hs & Hb). unfold delivered, delivery_result. simpl.
  rewrite Hs, Hb. simpl. by destruct body.
Qed.

Lemma delivered_other_status answer :
  answers_other_status answer → delivered answer = false.
Proof.
  intros (resp & -> & Hs). unfold delivered, delivery_result. simpl.
  apply Z.eqb_neq in Hs. rewrite Hs.
  by destruct (text_body resp) as [t|[| |cls]].
Qed.

(* ===================================================================== *)
(** ** The batch survives failures *)
(* ===================================================================== *)

(** C1.  Whatever the gateway, the image host and Pillow do, [send]
    returns, and it has issued one POST per record of the batch, in order,
    each carrying the caption of its record: no failed delivery and no
    exception keeps a later record from being tried.  In particular, for a
    batch of three records where the second delivery is answered with a
    status other than 200 (the first and the third being answered 200 with
    a truthy body), [send] returns the identifiers of the first and third
    records and three POSTs have been issued. *)
Theorem send_survives_failures (W : World) (self : AstrBotNotifier) :
  (∀ illusts st,
     ∃ ids st' chains,
       send W self illusts st = (Returns ids, st')
       ∧ posts (events st') = posts (events st) ++ chains
       ∧ Forall2 (λ illust chain,
            last chain = Some (Plain (format_message W self illust)))
           illusts chains)
  ∧ (∀ r1 r2 r3 st,
       (∀ r, ∃ body, answers_200 body
                       (session_post W (count_posts (events st)) r)
                     ∧ truthy body = true) →
       (∀ r, answers_other_status
               (session_post W (count_posts (events st) + 1) r)) →
       (∀ r, ∃ body, answers_200 body
                       (session_post W (count_posts (events st) + 2) r)
                     ∧ truthy body = true) →
       ∃ st',
         send W self [r1; r2; r3] st = (Returns [id r1; id r3], st')
         ∧ count_posts (events st') = (count_posts (events st) + 3)%nat).
Proof.
  split.
  - intros [|illust rest] st.
    + exists [], st, []. simpl. rewrite app_nil_r. repeat split. constructor.
    + rewrite send_eq. unfold state_before.
      destruct (send_loop_posts W self (illust :: rest) (set_success_ids [] st))
        as (chains & Hposts & Hall).
      eexists _, _, chains. split; [reflexivity|]. split.
      * simpl. rewrite posts_app, Hposts. simpl. by rewrite app_nil_r.
      * eapply Forall2_impl; [exact Hall|].
        intros il chain (imgs & -> & _). by rewrite last_snoc.
  - intros r1 r2 r3 st H1 H2 H3.
    rewrite send_eq. eexists. split; [|].
    + f_equal. f_equal. unfold state_before.
      rewrite !send_loop_cons. simpl.
      rewrite !success_ids_send_one. simpl.
      set (st0 := set_success_ids [] st).
      set (st1 := (send_one W self r1 st0).2).
      set (st2 := (send_one W self r2 st1).2).
      assert (E1 : count_posts (events st1) = (count_posts (events st) + 1)%nat).
      { unfold st1. rewrite count_posts_send_one. simpl. lia. }
      assert (E2 : count_posts (events st2) = (count_posts (events st) + 2)%nat).
      { unfold st2. rewrite count_posts_send_one, E1. lia. }
      unfold answer_of. rewrite E1, E2. simpl.
      destruct (H1 (request_of self (chain_of W self r1 st0)))
        as (b1 & Ha1 & Hb1).
      destruct (H3 (request_of self (chain_of W self r3 st2)))
        as (b3 & Ha3 & Hb3).
      rewrite (delivered_200 _ _ Ha1), Hb1.
      rewrite (delivered_200 _ _ Ha3), Hb3.
      by rewrite (delivered_other_status _ (H2 _)).
    + unfold state_before. rewrite !send_loop_cons. simpl.
      rewrite count_posts_app, !count_posts_send_one. simpl. 
      unfold count_posts at 2. simpl. lia.
Qed.

Lemma send_survives_failures_witness :
  ∃ st',
    send world_second_refused bot
      [illust_of 1 1 ["u"]; illust_of 2 1 []; illust_of 3 12 ["v"]] init_store
    = (Returns [1; 3], st')
    ∧ count_posts (events st') = 3%nat.
Proof.
  apply (proj2 (send_survives_failures world_second_refused bot)
           (illust_of 1 1 ["u"]) (illust_of 2 1 []) (illust_of 3 12 ["v"])
           init_store).
  - intros r. eexists. split; [eexists; repeat split; reflexivity|].
    reflexivity.
  - intros r. eexists. split; [reflexivity|]. simpl. lia.
  - intros r. eexists. split; [eexists; repeat split; reflexivity|].
    reflexivity.
Defined.

(* ===================================================================== *)
(** ** What [send] returns *)
(* ===================================================================== *)

(** C9.  The list [send] returns is a subsequence of the identifiers of
    its records, in the order of the batch: every identifier in it is the
    identifier of a record, the order of the records is kept, and a record
    contributes its identifier at most once. *)
Theorem send_returns_subsequence (W : World) (self : AstrBotNotifier)
    (illusts : list Illust) (st : store) :
  ∃ ids st',
    send W self illusts st = (Returns ids, st')
    ∧ ids `sublist_of` (id <$> illusts).
Proof.
  destruct illusts as [|illust rest].
  - by exists [], st.
  - rewrite send_eq. eexists _, _. split; [reflexivity|].
    unfold state_before.
    destruct (send_loop_success_ids W self (illust :: rest)
                (set_success_ids [] st)) as (ids & -> & Hsub).
    done.
Qed.

(* ===================================================================== *)
(** ** Plain text and buttons *)
(* ===================================================================== *)

Lemma button_labels (buttons : list (string * string)) :
  map (fun '(label, _) => "• " +:+ label) buttons
    = map (fun label => "• " +:+ label) buttons.*1.
Proof. induction buttons as [|[label action] rest IH]; simpl; by f_equal. Qed.

Lemma text_with_buttons_labels text (b1 b2 : list (string * string)) :
  b1.*1 = b2.*1 →
  text_with_buttons text (Some b1) = text_with_buttons text (Some b2).
Proof.
  intros H. unfold text_with_buttons.
  destruct b1 as [|p1 b1], b2 as [|p2 b2]; try done.
  by rewrite !button_labels, H.
Qed.

(** C10.  What [send_text] does depends on the buttons through their
    labels only: two button lists with the same labels, whatever their
    actions, give the same message chain, the same request to the gateway
    and the same outcome. *)
Theorem send_text_ignores_actions (W : World) (self : AstrBotNotifier)
    (text : string) (b1 b2 : list (string * string)) (st : store) :
  b1.*1 = b2.*1 →
  text_with_buttons text (Some b1) = text_with_buttons text (Some b2)
  ∧ send_text W self text (Some b1) st = send_text W self text (Some b2) st.
Proof.
  intros H. split; [by apply text_with_buttons_labels|].
  unfold send_text. by rewrite (text_with_buttons_labels text b1 b2 H).
Qed.

Lemma send_text_ignores_actions_witness :
  send_text world_second_refused bot "pick"
    (Some [("Like", "like:7"); ("Skip", "skip:7")]) init_store
  = send_text world_second_refused bot "pick"
    (Some [("Like", "rm -rf"); ("Skip", "")]) init_store.
Proof.
  apply (send_text_ignores_actions world_second_refused bot
           "pick" [("Like", "like:7"); ("Skip", "skip:7")]
           [("Like", "rm -rf"); ("Skip", "")] init_store).
  reflexivity.
Defined.

(* ===================================================================== *)
(** ** Feedback *)
(* ===================================================================== *)

(** C8, as stated, fails: a callback that raises takes the exception
    through [handle_feedback], which then returns nothing. *)
Lemma handle_feedback_callback_raises :
  (handle_feedback bot_failing_callback 7 "like" init_store).1
    = Raises (OtherException "RuntimeError").
Proof. reflexivity. Qed.

(** C8, amended.  Without a callback [handle_feedback] returns [True] and
    changes nothing; with a callback it calls it on the identifier and the
    action, and returns [True] when the callback returns (the exception of
    a callback that raises goes through).  It never returns [False]. *)
Theorem handle_feedback_acknowledges (self : AstrBotNotifier)
    (illust_id : Z) (action : string) (st : store) :
  (on_feedback self = None →
     handle_feedback self illust_id action st = (Returns true, st))
  ∧ (∀ cb, on_feedback self = Some cb →
       handle_feedback self illust_id action st
       = (match cb illust_id action with
          | Returns _ => Returns true
          | Raises e => Raises e
          end,
          emit (EvFeedback illust_id action) st))
  ∧ (∀ b, (handle_feedback self illust_id action st).1 = Returns b →
          b = true).
Proof.
  unfold handle_feedback, bind, call_feedback, ret.
  split; [|split].
  - by intros ->.
  - intros cb ->. by destruct (cb illust_id action).
  - intros b. destruct (on_feedback self) as [cb|]; simpl.
    + destruct (cb illust_id action); simpl; congruence.
    + congruence.
Qed.

Lemma handle_feedback_acknowledges_witness :
  handle_feedback bot 7 "like" init_store = (Returns true, init_store)
  ∧ handle_feedback bot_with_callback 7 "like" init_store
    = (Returns true, emit (EvFeedback 7 "like") init_store).
Proof.
  split.
  - apply (proj1 (handle_feedback_acknowledges bot 7 "like" init_store)).
    reflexivity.
  - apply (proj1 (proj2 (handle_feedback_acknowledges bot_with_callback
                           7 "like" init_store)) (fun _ _ => Returns tt)).
    reflexivity.
Defined.

(* ===================================================================== *)
(** ** Fetching and encoding the cover *)
(* ===================================================================== *)

(** C6.  [_download_and_encode_image] never raises.  When the fetch fails
    (the helper gives [None], or raises for a network error, a bad status
    or a timeout) it returns [None], and when decoding or encoding raises
    it returns [None] as well. *)
Theorem download_and_encode_never_raises (W : World) (self : AstrBotNotifier)
    (url : string) (st : store) :
  (∃ r st', _download_and_encode_image W self url st = (Returns r, st'))
  ∧ (cover_answer W url st = Returns None ∨
     (∃ e, cover_answer W url st = Raises e) →
     (_download_and_encode_image W self url st).1 = Returns None)
  ∧ (∀ image_data e,
       cover_answer W url st = Returns (Some image_data) →
       compress_image W self image_data = Raises e →
       (_download_and_encode_image W self url st).1 = Returns None).
Proof.
  rewrite _download_and_encode_image_eq. cbv zeta.
  fold (cover_answer W url st). split; [by eexists _, _|]. simpl.
  split.
  - by intros [-> | [e ->]].
  - intros image_data e -> He. unfold encoded.
    destruct image_data; [done|]. by rewrite He.
Qed.

Lemma download_and_encode_never_raises_witness :
  (_download_and_encode_image world_second_refused bot
     "https://i.pximg.net/7.png" init_store).1 = Returns None
  ∧ (_download_and_encode_image world_bad_image bot
       "https://i.pximg.net/7.png" init_store).1 = Returns None.
Proof.
  split.
  - apply (proj1 (proj2 (download_and_encode_never_raises
             world_second_refused bot
             "https://i.pximg.net/7.png" init_store))).
    left. reflexivity.
  - apply (proj2 (proj2 (download_and_encode_never_raises
             world_bad_image
             bot "https://i.pximg.net/7.png" init_store))
             [Byte.x00] (OtherException "UnidentifiedImageError"));
      reflexivity.
Defined.

(* ===================================================================== *)
(** ** Status 200 and the list of successes *)
(* ===================================================================== *)

(** What C3 says of the delivery layer holds: on a 200 [_post_message]
    returns the parsed body, and on another status it returns [None] or,
    when reading the error text fails, raises. *)
Lemma _post_message_200 (W : World) (self : AstrBotNotifier)
    (message_chain : list segment) (st : store) (body : json) :
  answers_200 body
    (session_post W (count_posts (events st)) (request_of self message_chain)) →
  (_post_message W self message_chain st).1 = Returns body.
Proof.
  intros (resp & Ha & Hs & Hb). rewrite _post_message_eq. cbv zeta.
  rewrite Ha. unfold delivery_result. simpl. rewrite Hs, Hb. simpl.
  by destruct body.
Qed.

Lemma _post_message_other_status (W : World) (self : AstrBotNotifier)
    (message_chain : list segment) (st : store) :
  answers_other_status
    (session_post W (count_posts (events st)) (request_of self message_chain)) →
  (_post_message W self message_chain st).1 = Returns JNull
  ∨ ∃ e, (_post_message W self message_chain st).1 = Raises e.
Proof.
  intros (resp & Ha & Hs). rewrite _post_message_eq. cbv zeta.
  rewrite Ha. unfold delivery_result. simpl.
  apply Z.eqb_neq in Hs. rewrite Hs.
  destruct (text_body resp) as [t|[| |cls]]; simpl; eauto.
Qed.

(** A record whose POST is answered with another status is not in the
    list [send] returns (here for a batch of one). *)
Lemma send_other_status_not_appended (W : World) (self : AstrBotNotifier)
    (illust : Illust) (st : store) :
  (∀ r, answers_other_status (session_post W (count_posts (events st)) r)) →
  (send W self [illust] st).1 = Returns [].
Proof.
  intros H. rewrite send_eq. unfold state_before.
  rewrite send_loop_cons. simpl. rewrite success_ids_send_one.
  unfold answer_of. simpl.
  by rewrite (delivered_other_status _ (H _)).
Qed.

(** C3 fails on the code: the gateway answers 200 with the body [{}];
    [_post_message] returns the parsed body, [send_text] reports success on
    the same answer, and [send] leaves the record out of its list. *)
Theorem send_drops_200_with_empty_body :
  (_post_message world_empty_body bot [Plain "sky"] init_store).1
    = Returns (JObj [])
  ∧ (send_text world_empty_body bot "sky" None init_store).1 = Returns true
  ∧ (send world_empty_body bot [illust_of 7 1 []] init_store).1 = Returns [].
Proof. vm_compute. done. Qed.

(* ===================================================================== *)
(** ** The correlation map *)
(* ===================================================================== *)

(** The two field names are read in order and the first truthy value
    wins; a falsy value under ["message_id"] gives way to ["msg_id"]. *)
Example reported_id_first_field :
  reported_id (JObj [("msg_id", JNum 7); ("message_id", JStr "m-1")])
  = Some (KStr "m-1").
Proof. reflexivity. Qed.

Example reported_id_second_field :
  reported_id (JObj [("message_id", JNum 0); ("msg_id", JNum 7)])
  = Some (KInt 7).
Proof. reflexivity. Qed.

Example reported_id_unhashable :
  reported_id (JObj [("message_id", JArr [JNum 1])]) = None.
Proof. reflexivity. Qed.

(** C2, as stated, fails: the delivery succeeds, the answer carries the
    message identifier [0], and the map gets no entry. *)
Lemma zero_message_id_not_recorded :
  (send world_zero_id bot [illust_of 7 1 []] init_store).1 = Returns [7]
  ∧ new_answers world_zero_id bot [illust_of 7 1 []] init_store
    = [Returns (ok_response (JObj [("message_id", JNum 0)]))]
  ∧ _message_illust_map
      (send world_zero_id bot [illust_of 7 1 []] init_store).2 = ∅.
Proof. vm_compute. done. Qed.

Lemma foldl_insert_entry_lookup (entries : list (pykey * Z))
    (m : gmap pykey Z) :
  NoDup entries.*1 →
  (∀ key i, (key, i) ∈ entries → foldl insert_entry m entries !! key = Some i)
  ∧ (∀ key, key ∉ entries.*1 → foldl insert_entry m entries !! key = m !! key)
  ∧ ((∀ key, key ∈ entries.*1 → m !! key = None) →
     size (foldl insert_entry m entries) = (size m + length entries)%nat).
Proof.
  revert m. induction entries as [|[k v] entries IH]; intros m Hnd.
  - simpl. split; [|split]; [by intros ?? ?%elem_of_nil|done|lia].
  - simpl in *. apply NoDup_cons in Hnd as [Hk Hnd].
    destruct (IH (insert_entry m (k, v)) Hnd) as (IH1 & IH2 & IH3).
    split; [|split].
    + intros key i [Heq|Hin]%elem_of_cons.
      * inversion Heq; subst. rewrite IH2 by done.
        unfold insert_entry. simpl. by rewrite lookup_insert_eq.
      * by apply IH1.
    + intros key Hkey. apply not_elem_of_cons in Hkey as [Hne Hkey].
      rewrite IH2 by done. unfold insert_entry. simpl.
      by rewrite lookup_insert_ne.
    + intros Hfresh. rewrite IH3.
      * unfold insert_entry. simpl.
        rewrite map_size_insert_None; [lia|].
        apply Hfresh. by left.
      * intros key Hkey. unfold insert_entry. simpl.
        rewrite lookup_insert_ne; [apply Hfresh; by right|].
        intros ->. done.
Qed.

(** C2, amended.  After [send], the correlation map is the one before with
    the entries of the batch written in, in order: a record leaves the
    entry [message identifier -> illustration identifier] when its
    delivery gave a truthy dict in which the value under ["message_id"],
    or else the value under ["msg_id"], is truthy (the first truthy one
    wins) and hashable; every other record leaves none.  When the
    identifiers of a batch are distinct, each of these deliveries has its
    entry in the map after [send], the other keys are as before, and, the
    identifiers being new, the map has grown by exactly one entry per such
    delivery.  An answer [{"message_id": 42}] leaves the entry from [42]
    to the illustration's identifier. *)
Theorem correlation_map_after_send (W : World) (self : AstrBotNotifier)
    (illusts : list Illust) (st : store) :
  length (new_answers W self illusts st) = length illusts
  ∧ _message_illust_map (send W self illusts st).2
    = foldl insert_entry (_message_illust_map st)
        (new_entries W self illusts st)
  ∧ (NoDup (new_entries W self illusts st).*1 →
     (∀ key i, (key, i) ∈ new_entries W self illusts st →
        _message_illust_map (send W self illusts st).2 !! key = Some i)
     ∧ (∀ key, key ∉ (new_entries W self illusts st).*1 →
          _message_illust_map (send W self illusts st).2 !! key
          = _message_illust_map st !! key)
     ∧ ((∀ key, key ∈ (new_entries W self illusts st).*1 →
           _message_illust_map st !! key = None) →
        size (_message_illust_map (send W self illusts st).2)
        = (size (_message_illust_map st)
           + length (new_entries W self illusts st))%nat))
  ∧ (∀ illust,
       correlation_entry
         (illust, Returns (ok_response (JObj [("message_id", JNum 42)])))
       = Some (KInt 42, id illust)).
Proof.
  unfold new_entries, new_answers.
  set (st' := (send W self illusts st).2).
  set (ans := drop (count_posts (events st)) (answers (events st'))).
  set (entries := omap correlation_entry (zip illusts ans)).
  assert (Hans : length ans = length illusts
                 ∧ _message_illust_map st'
                   = foldl insert_entry (_message_illust_map st) entries).
  { subst st' ans entries. destruct illusts as [|illust rest].
    - simpl. rewrite <- length_answers. by rewrite drop_all.
    - rewrite send_eq. unfold state_before. simpl.
      destruct (send_loop_answers W self (illust :: rest)
                  (set_success_ids [] st)) as (ans & Hans & Hlen & Hmap & _).
      rewrite answers_app, Hans. simpl. rewrite app_nil_r.
      rewrite <- length_answers, drop_app_length. by rewrite Hmap. }
  destruct Hans as [Hlen Hmap]. split; [done|]. split; [done|].
  split; [|done].
  intros Hnd. rewrite Hmap. by apply foldl_insert_entry_lookup.
Qed.

Lemma correlation_map_after_send_witness :
  _message_illust_map
    (send world_second_refused bot batch_of_three init_store).2 !! KInt 42
  = Some 1
  ∧ _message_illust_map
      (send world_second_refused bot batch_of_three init_store).2 !! KInt 44
    = Some 3
  ∧ size (_message_illust_map
            (send world_second_refused bot batch_of_three init_store).2)
    = 2%nat.
Proof.
  destruct (correlation_map_after_send world_second_refused bot
              batch_of_three init_store)
    as (_ & _ & H & _).
  destruct H as (H1 & _ & H3).
  { vm_compute. apply NoDup_cons. split; [|apply NoDup_singleton].
    intros Hin%list_elem_of_singleton. discriminate. }
  split; [|split].
  - apply H1. vm_compute. left.
  - apply H1. vm_compute. right. left.
  - apply H3. intros key _. apply lookup_empty.
Defined.

(* ===================================================================== *)
(** ** The pause between messages *)
(* ===================================================================== *)

(** C4, as stated, fails: the first delivery is answered 200 with a body
    that is not JSON, [resp.json()] raises, and the second POST follows
    with no pause in between; the only pause of the batch comes after the
    second record. *)
Lemma no_pause_after_exception :
  (send world_first_garbled bot [illust_of 7 1 []; illust_of 8 1 []]
     init_store).1 = Returns [8]
  ∧ ∃ r7 a7 r8 a8,
      events (send world_first_garbled bot
                [illust_of 7 1 []; illust_of 8 1 []] init_store).2
      = [EvPost r7 a7; EvLog ERROR; EvPost r8 a8; EvLog DEBUG;
         EvSleep 1; EvLog INFO].
Proof.
  split; [by vm_compute|]. vm_compute. by eexists _, _, _, _.
Qed.

(** C4, amended.  For every record of a batch whose [try] block runs to
    its end, be the delivery a success or a failure, the last thing [send]
    does for the record is to pause for 1 time unit: the trace when the
    record is done is the trace when it was started, followed by the events
    of the record, a single POST among them and no pause, and then by the
    pause.  Whatever [send] does for the later records comes after. *)
Theorem pause_after_completed_record (W : World) (self : AstrBotNotifier)
    (done : list Illust) (illust : Illust) (rest : list Illust) (st : store) :
  (send_try W self illust (state_before W self done st)).1 = Returns tt →
  (∃ evs,
     events (state_before W self (done ++ [illust]) st)
     = events (state_before W self done st) ++ evs ++ [EvSleep 1]
     ∧ pauses evs = [] ∧ length (posts evs) = 1%nat)
  ∧ events (state_before W self (done ++ [illust]) st)
      `prefix_of` events (send W self (done ++ illust :: rest) st).2.
Proof.
  intros Htry. split.
  - rewrite state_before_snoc, send_one_eq. cbv zeta. simpl.
    rewrite send_try_outcome in Htry.
    destruct (completes _) eqn:Hc.
    + exists (cover_events W self illust (state_before W self done st)
                ++ EvPost
                     (request_of self
                        (chain_of W self illust (state_before W self done st)))
                     (answer_of W self illust (state_before W self done st))
                   :: delivery_logs
                        (answer_of W self illust (state_before W self done st))).
      split.
      * by rewrite <- !app_assoc.
      * rewrite pauses_app, posts_app, pauses_cover_events,
          posts_cover_events. simpl.
        by rewrite pauses_delivery_logs, posts_delivery_logs.
    + unfold completes in Hc.
      destruct (obind _ _); discriminate.
  - rewrite send_nonempty by (by destruct done).
    replace (done ++ illust :: rest) with ((done ++ [illust]) ++ rest)
      by (by rewrite <- app_assoc).
    rewrite (state_before_app _ _ (done ++ [illust]) rest). simpl.
    etrans; [apply events_send_loop_prefix|]. by eexists.
Qed.

Lemma pause_after_completed_record_witness :
  ∃ evs,
    events (state_before world_second_refused bot
              [illust_of 1 1 ["u"]; illust_of 2 1 []] init_store)
    = events (state_before world_second_refused bot
                [illust_of 1 1 ["u"]] init_store)
        ++ evs ++ [EvSleep 1]
    ∧ pauses evs = [] ∧ length (posts evs) = 1%nat.
Proof.
  apply (proj1 (pause_after_completed_record world_second_refused bot
                  [illust_of 1 1 ["u"]]
                  (illust_of 2 1 []) [illust_of 3 12 ["v"]] init_store
                  eq_refl)).
Defined.

(* ===================================================================== *)
(** ** The chain *)
(* ===================================================================== *)

Lemma posts_state_before (W : World) (self : AstrBotNotifier)
    (done : list Illust) (st : store) :
  ∃ chains, posts (events (state_before W self done st))
            = posts (events st) ++ chains
            ∧ length chains = length done.
Proof.
  unfold state_before.
  destruct (send_loop_posts W self done (set_success_ids [] st))
    as (chains & Hposts & Hall).
  exists chains. split; [done|]. symmetry. by eapply Forall2_length.
Qed.

(** C5.  When a record of a batch has an image URL and encoding its cover
    gives [None], the chain posted for it is the mirror link of its
    identifier followed by its caption.  And every chain [send] posts is
    made of image segments followed by one caption, which comes last. *)
Theorem fallback_link_then_caption (W : World) (self : AstrBotNotifier) :
  (∀ done illust rest url urls st,
     image_urls illust = url :: urls →
     (_download_and_encode_image W self url
        (state_before W self done st)).1 = Returns None →
     posts (events (send W self (done ++ illust :: rest) st).2)
       !! (count_posts (events st) + length done)%nat
     = Some [Image_url (get_pixiv_cat_url W (id illust));
             Plain (format_message W self illust)])
  ∧ (∀ illusts st chain,
       chain ∈ new_posts W self illusts st →
       ∃ imgs text, chain = imgs ++ [Plain text]
                    ∧ forallb is_image imgs = true).
Proof.
  unfold new_posts. split.
  - intros done illust rest url urls st Hurls Hnone.
    rewrite send_nonempty by (by destruct done). simpl.
    rewrite posts_app. simpl. rewrite app_nil_r.
    replace (done ++ illust :: rest) with ((done ++ [illust]) ++ rest)
      by (by rewrite <- app_assoc).
    rewrite (state_before_app _ _ (done ++ [illust]) rest).
    destruct (send_loop_posts W self rest
                (state_before W self (done ++ [illust]) st))
      as (later & -> & _).
    rewrite state_before_snoc, send_one_eq. cbv zeta. simpl.
    destruct (posts_state_before W self done st) as (earlier & He & Hlen).
    rewrite !posts_app, He, posts_cover_events. simpl.
    rewrite posts_app, posts_delivery_logs. simpl.
    replace (match (if completes _ then EvSleep 1 else EvLog ERROR) with
             | EvPost r _ => [req_message r]
             | _ => []
             end) with (@nil (list segment)) by (by destruct (completes _)).
    rewrite <- !app_assoc. unfold count_posts.
    rewrite lookup_app_r by lia.
    rewrite lookup_app_r by lia.
    replace (_ - _ - _)%nat with 0%nat by lia. simpl.
    f_equal. unfold chain_of, cover_segments. rewrite Hurls.
    rewrite _download_and_encode_image_eq in Hnone. simpl in Hnone.
    unfold cover_answer. injection Hnone as ->. done.
  - intros illusts st chain Hin. destruct illusts as [|illust rest].
    + simpl in Hin. unfold count_posts in Hin. rewrite drop_all in Hin.
      by apply elem_of_nil in Hin.
    + rewrite send_eq in Hin. simpl in Hin.
      rewrite posts_app in Hin. simpl in Hin. rewrite app_nil_r in Hin.
      unfold state_before in Hin.
      destruct (send_loop_posts W self (illust :: rest)
                  (set_success_ids [] st)) as (chains & Hposts & Hall).
      rewrite Hposts in Hin. simpl in Hin. unfold count_posts in Hin.
      rewrite drop_app_length in Hin.
      apply list_elem_of_lookup in Hin as [i Hi].
      destruct (Forall2_lookup_r _ _ _ _ _ Hall Hi)
        as (il & _ & imgs & -> & Himgs).
      eauto.
Qed.

Lemma fallback_link_then_caption_witness :
  posts (events (send world_second_refused bot
                   [illust_of 1 1 ["u"]; illust_of 3 12 ["v"]]
                   init_store).2) !! 1%nat
  = Some [Image_url "https://pixiv.cat/3.jpg";
          Plain (format_message world_second_refused bot
                   (illust_of 3 12 ["v"]))].
Proof.
  apply (proj1 (fallback_link_then_caption world_second_refused bot)
           [illust_of 1 1 ["u"]]
           (illust_of 3 12 ["v"]) [] "v" [] init_store);
    reflexivity.
Defined.

(* ===================================================================== *)
(** ** The caption *)
(* ===================================================================== *)

Lemma append_cons (x : Ascii.ascii) (a b : string) :
  String x a +:+ b = String x (a +:+ b).
Proof. reflexivity. Qed.

Lemma append_nil_l (b : string) : "" +:+ b = b.
Proof. reflexivity. Qed.

Lemma append_assoc (a b c : string) : (a +:+ b) +:+ c = a +:+ b +:+ c.
Proof.
  induction a as [|x a IH]; [done|]. rewrite !append_cons. by f_equal.
Qed.

Lemma append_nil_r (a : string) : a +:+ "" = a.
Proof. induction a as [|x a IH]; [done|]. rewrite append_cons. by f_equal. Qed.

Lemma prefix_nil (s : string) : String.prefix "" s = true.
Proof. by destruct s. Qed.

Lemma occurs_cons c x s :
  occurs c (String x s) = Ascii.eqb c x || occurs c s.
Proof. reflexivity. Qed.

Lemma occurs_app c a b : occurs c (a +:+ b) = occurs c a || occurs c b.
Proof.
  induction a as [|x a IH]; [done|]. rewrite append_cons. simpl.
  rewrite <- orb_assoc. by f_equal.
Qed.

Lemma contains_occurs c sub s :
  contains sub s → occurs c sub = true → occurs c s = true.
Proof.
  intros (pre & post & ->) H. rewrite !occurs_app, H.
  by rewrite orb_true_r.
Qed.

Lemma pretty_N_char_no_paren (n : N) :
  Ascii.eqb open_paren (pretty_N_char n) = false.
Proof.
  destruct n as [|p]; [done|].
  do 5 (try destruct p as [p|p|]; try reflexivity).
Qed.

Lemma occurs_pretty_N_go (x : N) (s : string) :
  occurs open_paren (pretty_N_go x s) = occurs open_paren s.
Proof.
  revert s. induction (N.lt_wf_0 x) as [x _ IH]; intros s.
  destruct (decide (x = 0)%N) as [->|Hx].
  - by rewrite pretty_N_go_0.
  - rewrite pretty_N_go_step by lia.
    rewrite IH by (apply N.div_lt; lia).
    by rewrite occurs_cons, pretty_N_char_no_paren.
Qed.

Lemma occurs_pretty_positive (p : positive) :
  occurs open_paren (pretty (Npos p)) = false.
Proof.
  unfold pretty, pretty_N. case_decide; [done|].
  by rewrite occurs_pretty_N_go.
Qed.

(** The decimal form of an integer has no parenthesis. *)
Lemma occurs_str (n : Z) : occurs open_paren (str n) = false.
Proof.
  unfold str, pretty, pretty_Z. destruct n as [|p|p]; [done|..].
  - apply occurs_pretty_positive.
  - rewrite occurs_app. simpl. apply occurs_pretty_positive.
Qed.

Lemma occurs_join_tags (shown : list string) :
  Forall (λ t, occurs open_paren t = false) shown →
  occurs open_paren (join " " (map (fun t => "#" +:+ t) shown)) = false.
Proof.
  induction 1 as [|t shown Ht _ IH]; [done|].
  destruct shown as [|t' shown].
  - change (join " " (map (fun t => "#" +:+ t) [t])) with ("#" +:+ t).
    by rewrite occurs_app, Ht.
  - change (join " " (map (fun t => "#" +:+ t) (t :: t' :: shown)))
      with (("#" +:+ t) +:+ " "
              +:+ join " " (map (fun t => "#" +:+ t) (t' :: shown))).
    by rewrite !occurs_app, IH, Ht.
Qed.

Section Caption.

Context (W : World) (self : AstrBotNotifier) (illust : Illust).

(** The caption starts with the long-form marker exactly when the record
    has more pages than [max_pages]. *)
Lemma long_mark_prefix :
  String.prefix "📚 " (format_message W self illust) = true
  ↔ page_count illust > max_pages self.
Proof.
  unfold format_message, long_mark.
  destruct (page_count illust >? max_pages self) eqn:E.
  - split; [intros _; by apply Z.lt_gt, Z.gtb_lt|intros _].
    simpl. apply prefix_nil.
  - split; [|intros H%Z.gt_lt%Z.gtb_lt; congruence].
    unfold r18_mark, ugoira_mark.
    destruct (is_r18 illust), (String.eqb _ "ugoira"); simpl; discriminate.
Qed.

(** Without the suffix the caption of such a record has no parenthesis. *)
Lemma caption_without_paren :
  no_paren_in_texts W illust →
  page_count illust ≤ 1 →
  occurs open_paren (format_message W self illust) = false.
Proof.
  intros (Ht & Hu & Htags & Hscore) Hpc.
  unfold format_message, page_info.
  replace (page_count illust >? 1) with false
    by (symmetry; rewrite Z.gtb_ltb; apply Z.ltb_ge; lia).
  rewrite !occurs_app, Ht, Hu, !occurs_str.
  unfold tags_text. rewrite (occurs_join_tags _ Htags).
  assert (occurs open_paren (match_line W illust) = false) as ->.
  { unfold match_line. destruct (match_score illust) as [score|]; [|done].
    rewrite !occurs_app, (Hscore score eq_refl). done. }
  unfold long_mark, r18_mark, ugoira_mark.
  by destruct (_ >? _), (is_r18 illust), (String.eqb _ "ugoira").
Qed.

End Caption.

(** C7.  For every record: the caption starts with the long-form marker
    if and only if [page_count] is above [max_pages]; after the marks and
    the title comes the suffix [ (<n>P)] when [page_count > 1] and nothing
    when it is not, and then the end of the title line; at most 5 tags are
    shown, the first ones, each with [#] in front, on the tag line.  For a
    record whose own texts have no parenthesis, the caption contains
    [ (<n>P)] if and only if [page_count > 1]. *)
Theorem caption_suffix_marker_and_tags (W : World) (self : AstrBotNotifier)
    (illust : Illust) :
  (String.prefix "📚 " (format_message W self illust) = true
   ↔ page_count illust > max_pages self)
  ∧ (∃ rest,
       format_message W self illust
       = long_mark self illust +:+ r18_mark illust +:+ ugoira_mark illust
           +:+ "🎨 " +:+ title illust
           +:+ (if bool_decide (page_count illust > 1)
                then page_suffix (page_count illust) else "")
           +:+ nl +:+ "👤 " +:+ user_name illust +:+ nl +:+ rest)
  ∧ (page_count illust > 1 →
     contains (title illust +:+ page_suffix (page_count illust) +:+ nl)
              (format_message W self illust))
  ∧ (no_paren_in_texts W illust →
     (contains (page_suffix (page_count illust)) (format_message W self illust)
      ↔ page_count illust > 1))
  ∧ (∃ shown,
       shown = take 5 (tags illust)
       ∧ (length shown ≤ 5)%nat
       ∧ tags_text illust = join " " (map (fun t => "#" +:+ t) shown)
       ∧ contains ("🏷️ " +:+ tags_text illust +:+ nl)
                  (format_message W self illust)).
Proof.
  unfold page_suffix.
  set (caption := format_message W self illust).
  set (suffix := " (" +:+ str (page_count illust) +:+ "P)").
  assert (Hdec : ∃ rest,
    caption
    = long_mark self illust +:+ r18_mark illust +:+ ugoira_mark illust
        +:+ "🎨 " +:+ title illust
        +:+ (if bool_decide (page_count illust > 1) then suffix else "")
        +:+ nl +:+ "👤 " +:+ user_name illust +:+ nl +:+ rest).
  { eexists. subst caption suffix. unfold format_message, page_info.
    replace (page_count illust >? 1) with (bool_decide (page_count illust > 1)).
    - reflexivity.
    - case_bool_decide as H.
      + symmetry. by apply Z.gtb_lt, Z.gt_lt.
      + symmetry. rewrite Z.gtb_ltb. apply Z.ltb_ge. lia. }
  assert (Hsuf : page_count illust > 1 →
                 contains (title illust +:+ suffix +:+ nl) caption).
  { intros Hpc. destruct Hdec as [rest Hrest].
    rewrite bool_decide_eq_true_2 in Hrest by done.
    exists (long_mark self illust +:+ r18_mark illust
              +:+ ugoira_mark illust +:+ "🎨 "),
           ("👤 " +:+ user_name illust +:+ nl +:+ rest).
    rewrite Hrest. by rewrite !append_assoc. }
  split; [apply long_mark_prefix|]. split; [exact Hdec|].
  split; [exact Hsuf|]. split.
  - intros Hfree. split.
    + intros Hc. destruct (decide (page_count illust > 1)) as [|Hle]; [done|].
      assert (occurs open_paren caption = true) as Ho
        by (by apply (contains_occurs _ _ _ Hc)).
      unfold caption in Ho.
      rewrite (caption_without_paren W self illust Hfree) in Ho by lia.
      discriminate.
    + intros Hpc. destruct (Hsuf Hpc) as (pre & post & Heq).
      exists (pre +:+ title illust), (nl +:+ post). rewrite Heq.
      by rewrite !append_assoc.
  - exists (take 5 (tags illust)). split; [done|]. split.
    + rewrite length_take. lia.
    + split; [done|]. subst caption. unfold format_message.
      exists (long_mark self illust +:+ r18_mark illust
                +:+ ugoira_mark illust +:+ "🎨 " +:+ title illust
                +:+ page_info illust +:+ nl
                +:+ "👤 " +:+ user_name illust +:+ nl
                +:+ "❤️ " +:+ str (bookmark_count illust) +:+ nl
                +:+ match_line W illust),
             ("🔗 https://pixiv.net/i/" +:+ str (id illust) +:+ nl +:+ nl
                +:+ "回复 " +:+ str (id illust) +:+ " 1=喜欢 2=不喜欢").
      by rewrite !append_assoc.
Qed.

Lemma caption_suffix_marker_and_tags_witness :
  contains " (12P)"
    (format_message world_second_refused bot (illust_of 3 12 ["v"]))
  ∧ ¬ contains " (1P)"
        (format_message world_second_refused bot (illust_of 1 1 ["u"])).
Proof.
  set (W := world_second_refused).
  assert (Hfree : ∀ i pages urls, no_paren_in_texts W (illust_of i pages urls)).
  { intros i pages urls. split; [done|]. split; [done|]. split.
    - simpl. repeat constructor.
    - intros score H. discriminate H. }
  split.
  - apply (proj1 (proj2 (proj2 (proj2
             (caption_suffix_marker_and_tags W bot (illust_of 3 12 ["v"])))))
             (Hfree _ _ _)).
    reflexivity.
  - intros Hc.
    pose proof (proj1 (proj1 (proj2 (proj2 (proj2
                  (caption_suffix_marker_and_tags W bot
                     (illust_of 1 1 ["u"])))))
                  (Hfree _ _ _)) Hc) as Hgt.
    discriminate Hgt.
Defined.

(* ===================================================================== *)
(** ** More on the loop *)
(* ===================================================================== *)

Lemma requests_app tr1 tr2 :
  requests (tr1 ++ tr2) = requests tr1 ++ requests tr2.
Proof.
  induction tr1 as [|[] tr1 IH]; simpl; [done|..]; by rewrite ?IH.
Qed.

Lemma downloads_app tr1 tr2 :
  downloads (tr1 ++ tr2) = downloads tr1 ++ downloads tr2.
Proof.
  induction tr1 as [|[] tr1 IH]; simpl; [done|..]; by rewrite ?IH.
Qed.

Lemma length_requests tr : length (requests tr) = count_posts tr.
Proof.
  unfold count_posts. induction tr as [|[] tr IH]; simpl; by rewrite ?IH.
Qed.

Lemma closing_event_quiet (b : bool) :
  posts [if b then EvSleep 1 else EvLog ERROR] = []
  ∧ answers [if b then EvSleep 1 else EvLog ERROR] = []
  ∧ requests [if b then EvSleep 1 else EvLog ERROR] = []
  ∧ downloads [if b then EvSleep 1 else EvLog ERROR] = []
  ∧ pauses [if b then EvSleep 1 else EvLog ERROR] = (if b then [1] else []).
Proof. by destruct b. Qed.

Section LoopFacts.

Context (W : World) (self : AstrBotNotifier).

Lemma answers_send_one illust st :
  answers (events (send_one W self illust st).2)
    = answers (events st) ++ [answer_of W self illust st].
Proof.
  rewrite send_one_eq. simpl.
  rewrite !answers_app, answers_cover_events. simpl.
  rewrite answers_app, answers_delivery_logs. simpl.
  by destruct (completes _).
Qed.

(** The run of the loop, read off the answers it got: the successes are
    the delivered records, the map takes their entries, and the pauses are
    those of the records whose [try] block ran to its end. *)
Lemma send_loop_run illusts st :
  ∃ ans,
    answers (events (send_loop W self illusts st).2)
      = answers (events st) ++ ans
    ∧ length ans = length illusts
    ∧ success_ids (send_loop W self illusts st).2
      = success_ids st
          ++ ((λ p, id p.1) <$> filter (λ p, delivered p.2 = true)
                                  (zip illusts ans))
    ∧ _message_illust_map (send_loop W self illusts st).2
      = foldl insert_entry (_message_illust_map st)
          (omap correlation_entry (zip illusts ans))
    ∧ pauses (events (send_loop W self illusts st).2)
      = pauses (events st)
          ++ replicate (length (filter (λ a, completes a = true) ans)) 1.
Proof.
  revert st. induction illusts as [|illust rest IH]; intros st.
  - exists []. simpl. by rewrite !app_nil_r.
  - rewrite send_loop_cons.
    destruct (IH (send_one W self illust st).2)
      as (ans & Hans & Hlen & Hids & Hmap & Hp).
    exists (answer_of W self illust st :: ans).
    split; [|split; [|split; [|split]]].
    + by rewrite Hans, answers_send_one, <- app_assoc.
    + simpl. by rewrite Hlen.
    + rewrite Hids, success_ids_send_one. simpl.
      rewrite filter_cons. simpl.
      destruct (delivered (answer_of W self illust st)) eqn:Hd.
      * rewrite decide_True by done. by rewrite <- app_assoc.
      * rewrite decide_False by done. by rewrite app_nil_r.
    + rewrite Hmap, send_one_eq. simpl.
      by destruct (correlation_entry _) as [[key i]|].
    + rewrite Hp, send_one_eq. simpl.
      rewrite !pauses_app, pauses_cover_events. simpl.
      rewrite pauses_app, pauses_delivery_logs. simpl.
      rewrite filter_cons.
      destruct (completes (answer_of W self illust st)) eqn:Hc.
      * rewrite decide_True by done. simpl. by rewrite <- !app_assoc.
      * rewrite decide_False by done. simpl. by rewrite <- !app_assoc.
Qed.

Lemma new_answers_eq illusts st ans :
  answers (events (state_before W self illusts st))
    = answers (events st) ++ ans →
  new_answers W self illusts st = ans.
Proof.
  intros H. unfold new_answers. destruct illusts as [|illust rest].
  - unfold state_before in H. simpl in H.
    change (send_loop W self [] (set_success_ids [] st)).2
      with (set_success_ids [] st) in H. simpl in H.
    assert (ans = []) as -> by (by destruct ans; [|apply (f_equal length) in H;
      rewrite length_app in H; simpl in H; lia]).
    simpl. rewrite <- length_answers. by rewrite drop_all.
  - rewrite send_eq. simpl.
    rewrite answers_app, H. simpl. rewrite app_nil_r.
    rewrite <- length_answers. by rewrite drop_app_length.
Qed.

End LoopFacts.

(** What [send] returns and what it leaves in the map, in terms of the
    answers it got. *)
Lemma send_run (W : World) (self : AstrBotNotifier)
    (illusts : list Illust) (st : store) :
  length (new_answers W self illusts st) = length illusts
  ∧ (send W self illusts st).1
    = Returns ((λ p, id p.1)
                 <$> filter (λ p, delivered p.2 = true)
                       (zip illusts (new_answers W self illusts st)))
  ∧ _message_illust_map (send W self illusts st).2
    = foldl insert_entry (_message_illust_map st)
        (new_entries W self illusts st)
  ∧ pauses (events (send W self illusts st).2)
    = pauses (events st)
        ++ replicate
             (length (filter (λ a, completes a = true)
                        (new_answers W self illusts st))) 1.
Proof.
  unfold new_entries.
  destruct (send_loop_run W self illusts (set_success_ids [] st))
    as (ans & Hans & Hlen & Hids & Hmap & Hp).
  assert (Hna : new_answers W self illusts st = ans)
    by (by apply new_answers_eq).
  rewrite Hna. split; [done|].
  destruct illusts as [|illust rest].
  - destruct ans; [|done]. simpl. by rewrite app_nil_r.
  - rewrite send_eq. unfold state_before. simpl.
    rewrite Hids, Hmap, pauses_app, Hp. simpl. by rewrite app_nil_r.
Qed.

(* ===================================================================== *)
(** ** More on the correlation map *)
(* ===================================================================== *)

Lemma foldl_insert_entry_dom (entries : list (pykey * Z)) (m : gmap pykey Z)
    (key : pykey) :
  is_Some (foldl insert_entry m entries !! key)
  ↔ is_Some (m !! key) ∨ key ∈ entries.*1.
Proof.
  revert m. induction entries as [|[k v] entries IH]; intros m; simpl.
  - rewrite elem_of_nil. tauto.
  - rewrite IH. unfold insert_entry. simpl. rewrite lookup_insert_is_Some.
    rewrite elem_of_cons. destruct (decide (k = key)) as [->|Hne].
    + tauto.
    + assert (key ≠ k) by congruence. tauto.
Qed.

Lemma foldl_insert_entry_value (entries : list (pykey * Z)) (m : gmap pykey Z)
    (key : pykey) (v : Z) :
  foldl insert_entry m entries !! key = Some v →
  m !! key = Some v ∨ (key, v) ∈ entries.
Proof.
  revert m. induction entries as [|[k w] entries IH]; intros m; simpl.
  - by left.
  - intros H. destruct (IH _ H) as [Hm|Hin]; [|right; by right].
    unfold insert_entry in Hm. simpl in Hm.
    destruct (decide (k = key)) as [->|Hne].
    + rewrite lookup_insert_eq in Hm. inversion Hm; subst. right. by left.
    + rewrite lookup_insert_ne in Hm by done. by left.
Qed.

Lemma foldl_insert_entry_keep (after : list (pykey * Z)) (m : gmap pykey Z)
    (key : pykey) (v : Z) :
  m !! key = Some v → key ∉ after.*1 →
  foldl insert_entry m after !! key = Some v.
Proof.
  revert m. induction after as [|[k w] after IH]; intros m Hm Hafter; [done|].
  simpl in *. apply not_elem_of_cons in Hafter as [Hne Hafter].
  apply IH; [|done]. unfold insert_entry. simpl.
  by rewrite lookup_insert_ne.
Qed.

Lemma elem_of_new_entries (W : World) (self : AstrBotNotifier)
    (illusts : list Illust) (st : store) (key : pykey) (i : Z) :
  (key, i) ∈ new_entries W self illusts st →
  ∃ illust answer,
    (illust, answer) ∈ zip illusts (new_answers W self illusts st)
    ∧ correlation_entry (illust, answer) = Some (key, i).
Proof.
  unfold new_entries. intros H. apply list_elem_of_omap in H.
  destruct H as ([illust answer] & Hin & He). eauto.
Qed.

Lemma correlation_entry_delivered (illust : Illust)
    (answer : outcome response) (key : pykey) (i : Z) :
  correlation_entry (illust, answer) = Some (key, i) →
  delivered answer = true ∧ i = id illust.
Proof.
  unfold correlation_entry, delivered. simpl.
  destruct (delivery_result answer) as [result|e]; [|done].
  destruct (truthy result); [|done].
  destruct (reported_id result); simpl; [|done].
  intros H. by inversion H.
Qed.

(** X1.  [send] returns exactly the identifiers of the records whose
    delivery gave a truthy result, in the order of the batch. *)
Theorem send_returns_exactly_delivered (W : World) (self : AstrBotNotifier)
    (illusts : list Illust) (st : store) :
  (send W self illusts st).1
  = Returns ((λ p, id p.1)
               <$> filter (λ p, delivered p.2 = true)
                     (zip illusts (new_answers W self illusts st)))
  ∧ length (new_answers W self illusts st) = length illusts.
Proof.
  destruct (send_run W self illusts st) as (Hlen & Hids & _). done.
Qed.

(** X2.  [send] never removes a key from the correlation map, and the
    value under a key after [send] is the one before or the identifier of a
    record of the batch. *)
Theorem send_map_only_grows (W : World) (self : AstrBotNotifier)
    (illusts : list Illust) (st : store) :
  (∀ key, is_Some (_message_illust_map st !! key) →
          is_Some (_message_illust_map (send W self illusts st).2 !! key))
  ∧ (∀ key i,
       _message_illust_map (send W self illusts st).2 !! key = Some i →
       _message_illust_map st !! key = Some i ∨ i ∈ id <$> illusts).
Proof.
  destruct (send_run W self illusts st) as (_ & _ & Hmap & _).
  rewrite Hmap. split.
  - intros key H. apply foldl_insert_entry_dom. by left.
  - intros key i H. apply foldl_insert_entry_value in H as [H|H]; [by left|].
    right. apply elem_of_new_entries in H as (illust & answer & Hin & He).
    apply correlation_entry_delivered in He as [_ ->].
    apply list_elem_of_fmap. exists illust. split; [done|].
    apply list_elem_of_lookup in Hin as [n Hn].
    apply lookup_zip_with_Some in Hn as (x & y & Heq & Hx & _).
    inversion Heq; subst. by eapply list_elem_of_lookup_2.
Qed.

(** X3.  When several deliveries of a batch report the same message
    identifier, the last one wins: the key maps to the identifier of the
    last record that reported it. *)
Theorem send_last_write_wins (W : World) (self : AstrBotNotifier)
    (illusts : list Illust) (st : store)
    (before after : list (pykey * Z)) (key : pykey) (i : Z) :
  new_entries W self illusts st = before ++ (key, i) :: after →
  key ∉ after.*1 →
  _message_illust_map (send W self illusts st).2 !! key = Some i.
Proof.
  intros Hsplit Hafter.
  destruct (send_run W self illusts st) as (_ & _ & Hmap & _).
  rewrite Hmap, Hsplit, foldl_app. simpl.
  apply foldl_insert_entry_keep; [|done].
  unfold insert_entry. simpl. by rewrite lookup_insert_eq.
Qed.

Lemma send_last_write_wins_witness :
  _message_illust_map
    (send world_same_id bot [illust_of 1 1 []; illust_of 2 1 []]
       init_store).2 !! KInt 9 = Some 2.
Proof.
  apply (send_last_write_wins world_same_id bot
           [illust_of 1 1 []; illust_of 2 1 []] init_store
           [(KInt 9, 1)] [] (KInt 9) 2).
  - vm_compute. reflexivity.
  - apply not_elem_of_nil.
Defined.

(** X4.  An entry is written only for a record that is reported as sent:
    the value of every entry a batch leaves is in the list [send]
    returns. *)
Theorem send_entries_are_successes (W : World) (self : AstrBotNotifier)
    (illusts : list Illust) (st : store) (key : pykey) (i : Z) :
  (key, i) ∈ new_entries W self illusts st →
  ∃ ids, (send W self illusts st).1 = Returns ids ∧ i ∈ ids.
Proof.
  intros H. destruct (send_run W self illusts st) as (_ & Hids & _).
  eexists. split; [exact Hids|].
  apply elem_of_new_entries in H as (illust & answer & Hin & He).
  apply correlation_entry_delivered in He as [Hd ->].
  apply list_elem_of_fmap. exists (illust, answer). split; [done|].
  apply list_elem_of_filter. done.
Qed.

Lemma send_entries_are_successes_witness :
  ∃ ids,
    (send world_second_refused bot batch_of_three init_store).1 = Returns ids
    ∧ 3 ∈ ids.
Proof.
  apply (send_entries_are_successes world_second_refused bot batch_of_three
           init_store (KInt 44) 3).
  vm_compute. right. left.
Defined.

(** X5.  Every pause of [send] lasts 1 time unit, and a batch pauses once
    for each record whose [try] block runs to its end, so at most once per
    record. *)
Theorem send_pauses (W : World) (self : AstrBotNotifier)
    (illusts : list Illust) (st : store) :
  ∃ n,
    pauses (events (send W self illusts st).2)
    = pauses (events st) ++ replicate n 1
    ∧ n = length (filter (λ a, completes a = true)
                    (new_answers W self illusts st))
    ∧ (n ≤ length illusts)%nat.
Proof.
  destruct (send_run W self illusts st) as (Hlen & _ & _ & Hp).
  eexists. split; [exact Hp|]. split; [done|].
  rewrite <- Hlen. apply length_filter.
Qed.

Lemma send_map_only_grows_witness :
  _message_illust_map init_store !! KInt 44 = Some 3
  ∨ 3 ∈ id <$> batch_of_three.
Proof.
  apply (proj2 (send_map_only_grows world_second_refused bot batch_of_three
                  init_store) (KInt 44) 3).
  vm_compute. reflexivity.
Defined.

(* ===================================================================== *)
(** ** What goes out: downloads and requests *)
(* ===================================================================== *)

Section Outgoing.

Context (W : World) (self : AstrBotNotifier).

Lemma downloads_encode_logs a : downloads (encode_logs W self a) = [].
Proof. unfold encode_logs. by repeat case_match. Qed.

Lemma downloads_delivery_logs a : downloads (delivery_logs a) = [].
Proof. unfold delivery_logs. by repeat case_match. Qed.

Lemma requests_delivery_logs a : requests (delivery_logs a) = [].
Proof. unfold delivery_logs. by repeat case_match. Qed.

Lemma requests_cover_events illust st :
  requests (cover_events W self illust st) = [].
Proof.
  unfold cover_events, encode_logs. by repeat case_match.
Qed.

Lemma downloads_cover_events illust st :
  downloads (cover_events W self illust st)
    = option_list (head (image_urls illust)).
Proof.
  unfold cover_events. destruct (image_urls illust); [done|]. simpl.
  by rewrite downloads_encode_logs.
Qed.

Lemma downloads_send_one illust st :
  downloads (events (send_one W self illust st).2)
    = downloads (events st) ++ option_list (head (image_urls illust)).
Proof.
  rewrite send_one_eq. simpl.
  rewrite !downloads_app, downloads_cover_events. simpl.
  rewrite downloads_app, downloads_delivery_logs. simpl.
  destruct (completes _); simpl; by rewrite app_nil_r.
Qed.

Lemma requests_send_one illust st :
  requests (events (send_one W self illust st).2)
    = requests (events st) ++ [request_of self (chain_of W self illust st)].
Proof.
  rewrite send_one_eq. simpl.
  rewrite !requests_app, requests_cover_events. simpl.
  rewrite requests_app, requests_delivery_logs. simpl.
  by destruct (completes _).
Qed.

Lemma downloads_send_loop illusts st :
  downloads (events (send_loop W self illusts st).2)
    = downloads (events st) ++ omap (λ illust, head (image_urls illust)) illusts.
Proof.
  revert st. induction illusts as [|illust rest IH]; intros st.
  - simpl. by rewrite app_nil_r.
  - rewrite send_loop_cons, IH, downloads_send_one, <- app_assoc.
    f_equal. simpl. by destruct (head (image_urls illust)).
Qed.

Lemma requests_send_loop illusts st :
  ∃ chains,
    requests (events (send_loop W self illusts st).2)
      = requests (events st) ++ (request_of self <$> chains)
    ∧ length chains = length illusts.
Proof.
  revert st. induction illusts as [|illust rest IH]; intros st.
  - exists []. simpl. by rewrite app_nil_r.
  - rewrite send_loop_cons.
    destruct (IH (send_one W self illust st).2) as (chains & Hr & Hlen).
    exists (chain_of W self illust st :: chains). split.
    + by rewrite Hr, requests_send_one, <- app_assoc.
    + simpl. by rewrite Hlen.
Qed.

End Outgoing.

(** X6.  Of each record [send] fetches the cover only, the first of its
    image URLs, once, in the order of the batch; a record without image
    URL causes no fetch. *)
Theorem send_fetches_covers_only (W : World) (self : AstrBotNotifier)
    (illusts : list Illust) (st : store) :
  downloads (events (send W self illusts st).2)
  = downloads (events st) ++ omap (λ illust, head (image_urls illust)) illusts.
Proof.
  destruct illusts as [|illust rest].
  - simpl. by rewrite app_nil_r.
  - rewrite send_eq. unfold state_before. simpl.
    rewrite downloads_app, downloads_send_loop. simpl.
    by rewrite app_nil_r.
Qed.

Lemma request_of_well_addressed (self : AstrBotNotifier)
    (chain : list segment) :
  well_addressed self (request_of self chain).
Proof.
  unfold well_addressed, request_of. simpl.
  split; [done|]. split; [done|]. split; [done|]. split; [by left|].
  intros v. destruct (api_key self) as [key|].
  - destruct (String.eqb key "") eqn:E.
    + apply String.eqb_eq in E. subst. split.
      * intros H. apply list_elem_of_singleton in H. discriminate.
      * intros (key & H & Hne & _). by inversion H.
    + apply String.eqb_neq in E. split.
      * intros H. apply elem_of_cons in H as [H|H]; [discriminate|].
        apply list_elem_of_singleton in H. inversion H. eauto.
      * intros (key' & H & _ & ->). inversion H. right. by left.
  - split.
    + intros H. apply list_elem_of_singleton in H. discriminate.
    + intros (key & H & _). discriminate.
Qed.

(** X7.  Every request [send] posts goes to the configured endpoint and
    destination with the fixed timeout and the JSON content type, and it
    carries an [Authorization] header, the bearer token, exactly when an
    API key that is not empty is configured; one request per record. *)
Theorem send_requests_well_addressed (W : World) (self : AstrBotNotifier)
    (illusts : list Illust) (st : store) :
  Forall (well_addressed self) (new_requests W self illusts st)
  ∧ length (new_requests W self illusts st) = length illusts.
Proof.
  unfold new_requests. destruct illusts as [|illust rest].
  - simpl. rewrite <- length_requests, drop_all. by split.
  - rewrite send_eq. unfold state_before. simpl.
    destruct (requests_send_loop W self (illust :: rest)
                (set_success_ids [] st)) as (chains & Hr & Hlen).
    rewrite requests_app, Hr. simpl. rewrite app_nil_r.
    rewrite <- length_requests, drop_app_length. split.
    + apply Forall_fmap, Forall_forall. intros chain _.
      apply request_of_well_addressed.
    + by rewrite length_fmap.
Qed.

(* ===================================================================== *)
(** ** The session *)
(* ===================================================================== *)

(** X8.  [close] is idempotent: a second [close] changes nothing.  After
    [close] the session is not open, the map and the trace are as before,
    and the next [_post_message] makes a session again. *)
Theorem close_idempotent (W : World) (self : AstrBotNotifier) (st : store) :
  close (close st).2 = (Returns tt, (close st).2)
  ∧ _session (close st).2 ≠ SessionOpen
  ∧ _message_illust_map (close st).2 = _message_illust_map st
  ∧ events (close st).2 = events st
  ∧ (∀ message_chain,
       _session (_post_message W self message_chain (close st).2).2
       = SessionOpen).
Proof.
  split; [|split; [|split; [|split]]].
  - unfold close. by destruct (_session st) eqn:E; simpl; rewrite ?E.
  - unfold close. by destruct (_session st) eqn:E; simpl; rewrite ?E.
  - unfold close. by destruct (_session st).
  - unfold close. by destruct (_session st).
  - intros message_chain. by rewrite _post_message_eq.
Qed.

(** X9.  Whatever talks to the network leaves the session open, and
    nothing but [close] closes it: after [_post_message], after
    [_download_and_encode_image], after [send_text] and after [send] on a
    batch that is not empty the session is open; [send] on the empty batch
    returns the empty list and leaves the whole state as it was. *)
Theorem session_open_after_use (W : World) (self : AstrBotNotifier)
    (st : store) :
  (∀ message_chain,
     _session (_post_message W self message_chain st).2 = SessionOpen)
  ∧ (∀ url, _session (_download_and_encode_image W self url st).2
            = SessionOpen)
  ∧ (∀ text buttons, _session (send_text W self text buttons st).2
                     = SessionOpen)
  ∧ (∀ illust rest, _session (send W self (illust :: rest) st).2
                    = SessionOpen)
  ∧ send W self [] st = (Returns [], st).
Proof.
  split; [|split; [|split; [|split]]]; try done.
  - intros message_chain. by rewrite _post_message_eq.
  - intros url. by rewrite _download_and_encode_image_eq.
  - intros text buttons. unfold send_text, bind.
    rewrite _post_message_eq. cbv zeta.
    by destruct (delivery_result _).
  - intros illust rest. rewrite send_eq. unfold state_before. simpl.
    replace (illust :: rest) with (removelast (illust :: rest)
                                     ++ [List.last (illust :: rest) illust])
      by (symmetry; by apply app_removelast_last).
    rewrite send_loop_app, send_loop_cons.
    change (send_loop W self [] ?s) with (ret tt s). simpl.
    by rewrite send_one_eq.
Qed.

(* ===================================================================== *)
(** ** Posting *)
(* ===================================================================== *)

(** X10.  [_post_message] lets neither [aiohttp.ClientError] nor
    [asyncio.TimeoutError] through: when the gateway, or reading its
    answer, raises one of them it returns [None].  Each call posts its
    chain once and leaves the map and the list of successes as they
    were. *)
Theorem post_message_absorbs_transport_errors (W : World)
    (self : AstrBotNotifier) (message_chain : list segment) (st : store) :
  (∀ e, (_post_message W self message_chain st).1 = Raises e →
        ∃ cls, e = OtherException cls)
  ∧ (session_post W (count_posts (events st)) (request_of self message_chain)
     = Raises ClientError
     ∨ session_post W (count_posts (events st)) (request_of self message_chain)
       = Raises TimeoutError →
     (_post_message W self message_chain st).1 = Returns JNull)
  ∧ posts (events (_post_message W self message_chain st).2)
    = posts (events st) ++ [message_chain]
  ∧ _message_illust_map (_post_message W self message_chain st).2
    = _message_illust_map st
  ∧ success_ids (_post_message W self message_chain st).2 = success_ids st.
Proof.
  rewrite _post_message_eq. cbv zeta. simpl.
  split; [|split; [|split; [|done]]].
  - intros e. unfold delivery_result, absorb, obind.
    destruct (session_post W _ _) as [resp|[| |cls]]; try done.
    + destruct (status resp =? 200).
      * destruct (json_body resp) as [j|[| |cls]]; try done.
        intros H. inversion H. eauto.
      * destruct (text_body resp) as [t|[| |cls]]; try done.
        intros H. inversion H. eauto.
    + intros H. inversion H. eauto.
  - by intros [-> | ->].
  - rewrite posts_app. simpl. by rewrite posts_delivery_logs.
Qed.

Lemma post_message_absorbs_transport_errors_witness :
  (∃ cls, OtherException "JSONDecodeError" = OtherException cls)
  ∧ (_post_message world_unreachable bot [Plain "sky"] init_store).1
    = Returns JNull.
Proof.
  split.
  - apply (proj1 (post_message_absorbs_transport_errors world_first_garbled
                    bot [Plain "sky"] init_store)).
    reflexivity.
  - apply (proj1 (proj2 (post_message_absorbs_transport_errors
                           world_unreachable bot [Plain "sky"] init_store))).
    left. reflexivity.
Defined.

(** X11.  [send_text] posts one chain, the text with its buttons as a
    single plain segment, and reports whether the delivery layer gave a
    result: [True] on a 200 whose body is not [null], [False] on another
    status or on a transport error.  It never touches the map. *)
Theorem send_text_outcome (W : World) (self : AstrBotNotifier)
    (text : string) (buttons : option (list (string * string)))
    (st : store) :
  (∀ body,
     answers_200 body
       (session_post W (count_posts (events st))
          (request_of self [Plain (text_with_buttons text buttons)])) →
     body ≠ JNull →
     (send_text W self text buttons st).1 = Returns true)
  ∧ (delivery_result
       (session_post W (count_posts (events st))
          (request_of self [Plain (text_with_buttons text buttons)]))
     = Returns JNull →
     (send_text W self text buttons st).1 = Returns false)
  ∧ posts (events (send_text W self text buttons st).2)
    = posts (events st) ++ [[Plain (text_with_buttons text buttons)]]
  ∧ _message_illust_map (send_text W self text buttons st).2
    = _message_illust_map st.
Proof.
  unfold send_text, bind. rewrite _post_message_eq. cbv zeta.
  split; [|split; [|split]].
  - intros body (resp & Ha & Hs & Hb) Hnn. rewrite Ha.
    unfold delivery_result. simpl. rewrite Hs, Hb. simpl.
    by destruct body.
  - by intros ->.
  - destruct (delivery_result _); simpl;
      rewrite posts_app; simpl; by rewrite posts_delivery_logs.
  - by destruct (delivery_result _).
Qed.

Lemma send_text_outcome_witness :
  (send_text world_empty_body bot "sky" None init_store).1 = Returns true
  ∧ (send_text world_unreachable bot "sky" None init_store).1
    = Returns false.
Proof.
  split.
  - apply (proj1 (send_text_outcome world_empty_body bot "sky" None
                    init_store) (JObj [])).
    + eexists. repeat split; reflexivity.
    + discriminate.
  - apply (proj1 (proj2 (send_text_outcome world_unreachable bot "sky" None
                           init_store))).
    reflexivity.
Defined.

(* ===================================================================== *)
(** ** Buttons as text *)
(* ===================================================================== *)

Lemma prefix_append (s x : string) : String.prefix s (s +:+ x) = true.
Proof.
  induction s as [|c s IH]; [apply prefix_nil|].
  rewrite append_cons. simpl. by destruct (Ascii.ascii_dec c c).
Qed.

Lemma contains_in_join (sep x pre : string) (parts : list string) :
  x ∈ parts → contains (sep +:+ x) (pre +:+ sep +:+ join sep parts).
Proof.
  revert pre. induction parts as [|p parts IH]; intros pre Hin.
  - by apply elem_of_nil in Hin.
  - apply elem_of_cons in Hin as [->|Hin].
    + destruct parts as [|p' parts].
      * exists pre, "". simpl. by rewrite append_nil_r.
      * exists pre, (sep +:+ join sep (p' :: parts)).
        change (join sep (p :: p' :: parts))
          with (p +:+ sep +:+ join sep (p' :: parts)).
        by rewrite !append_assoc.
    + destruct parts as [|p' parts]; [by apply elem_of_nil in Hin|].
      change (join sep (p :: p' :: parts))
        with (p +:+ sep +:+ join sep (p' :: parts)).
      destruct (IH (pre +:+ sep +:+ p) Hin) as (a & b & Heq).
      exists a, b. rewrite <- Heq. by rewrite !append_assoc.
Qed.

(** X12.  [send_text] loses nothing: the text posted starts with the text
    given, every button's label is in it as a bullet on a line of its own,
    and without buttons ([None] or an empty list) it is the text given. *)
Theorem buttons_become_bullets (text : string)
    (buttons : option (list (string * string))) :
  String.prefix text (text_with_buttons text buttons) = true
  ∧ (∀ bs label action,
       buttons = Some bs → (label, action) ∈ bs →
       contains (nl +:+ "• " +:+ label) (text_with_buttons text buttons))
  ∧ (buttons = None ∨ buttons = Some [] →
     text_with_buttons text buttons = text).
Proof.
  split; [|split].
  - pose proof (prefix_append text "") as Hrefl.
    rewrite append_nil_r in Hrefl.
    unfold text_with_buttons. destruct buttons as [[|b bs]|]; try done.
    apply prefix_append.
  - intros bs label action -> Hin. unfold text_with_buttons.
    destruct bs as [|b bs]; [by apply elem_of_nil in Hin|].
    rewrite button_labels.
    assert (Hl : "• " +:+ label
                 ∈ map (fun l => "• " +:+ l) (b :: bs).*1).
    { apply list_elem_of_fmap. exists label. split; [done|].
      apply list_elem_of_fmap. by exists (label, action). }
    destruct (contains_in_join nl _ (text +:+ nl) _ Hl) as (a & c & Heq).
    exists a, c. rewrite <- Heq. by rewrite !append_assoc.
  - by intros [-> | ->].
Qed.

Lemma buttons_become_bullets_witness :
  contains (nl +:+ "• " +:+ "Skip")
    (text_with_buttons "pick" (Some [("Like", "like:7"); ("Skip", "skip:7")])).
Proof.
  apply (proj1 (proj2 (buttons_become_bullets "pick"
                  (Some [("Like", "like:7"); ("Skip", "skip:7")])))
           [("Like", "like:7"); ("Skip", "skip:7")] "Skip" "skip:7").
  - reflexivity.
  - right. left.
Defined.

(* ===================================================================== *)
(** ** What is encoded *)
(* ===================================================================== *)

Lemma obind_returns {A B} (o : outcome A) (k : A -> outcome B) (b : B) :
  obind o k = Returns b → ∃ a, o = Returns a ∧ k a = Returns b.
Proof. destruct o as [a|e]; [|done]. intros H. by exists a. Qed.

(** X13.  With a Pillow that behaves, whatever [compress_image] encodes
    is an RGB image whose sides are at most [max_image_size]: the result is
    the base64 text of that image saved at [image_quality]. *)
Theorem compress_image_rgb_bounded (W : World) (self : AstrBotNotifier)
    (image_data : list Byte.byte) (b64 : string) :
  pillow_contract W →
  compress_image W self image_data = Returns b64 →
  ∃ img output,
    img_mode W img = "RGB"
    ∧ (img_size W img).1 ≤ max_image_size self
    ∧ (img_size W img).2 ≤ max_image_size self
    ∧ img_save W img (image_quality self) = Returns output
    ∧ b64 = b64encode W output.
Proof.
  intros (Hconv & Hnew & Hpaste & Hthumb) H. unfold compress_image in H.
  apply obind_returns in H as (img0 & _ & H).
  apply obind_returns in H as (img1 & _ & H).
  apply obind_returns in H as (img2 & H2 & H).
  apply obind_returns in H as (img3 & H3 & H).
  apply obind_returns in H as (output & Hs & H).
  assert (Hm2 : img_mode W img2 = "RGB").
  { destruct (String.eqb (img_mode W img1) "RGBA"
              || String.eqb (img_mode W img1) "LA").
    - apply obind_returns in H2 as (bg & Hbg & H2).
      apply obind_returns in H2 as (bands & _ & H2).
      apply obind_returns in H2 as (mask & _ & H2).
      destruct (Hpaste _ _ _ _ H2) as [-> _].
      by destruct (Hnew _ _ _ _ Hbg).
    - destruct (String.eqb (img_mode W img1) "RGB") eqn:Ergb; simpl in H2.
      + inversion H2; subst. by apply String.eqb_eq.
      + by destruct (Hconv _ _ _ H2). }
  exists img3, output.
  destruct (Z.max _ _ >? max_image_size self) eqn:Emax.
  - destruct (Hthumb _ _ _ H3) as (-> & ? & ?). inversion H. done.
  - inversion H3; subst. inversion H.
    rewrite Z.gtb_ltb in Emax. apply Z.ltb_ge in Emax.
    repeat split; try done; lia.
Qed.

Lemma toy_world_pillow_contract gateway host :
  pillow_contract (toy_world gateway host).
Proof.
  repeat split; simpl in *; intros; simplify_eq; simpl; try done; lia.
Qed.

Lemma compress_image_rgb_bounded_witness :
  ∃ img output,
    img_mode world_palette_image img = "RGB"
    ∧ (img_size world_palette_image img).1 ≤ 1500
    ∧ (img_size world_palette_image img).2 ≤ 1500
    ∧ img_save world_palette_image img 85 = Returns output
    ∧ "/9g=" = b64encode world_palette_image output.
Proof.
  apply (compress_image_rgb_bounded world_palette_image bot [Byte.x50] "/9g=").
  - apply toy_world_pillow_contract.
  - reflexivity.
Defined.

(** X14.  [_download_and_encode_image] fetches the URL it is given, once,
    and posts nothing; it leaves the map and the list of successes alone.
    On an empty body it returns [None] without a warning, Pillow not being
    called; on a body that is not empty and that Pillow encodes it returns
    the base64 text. *)
Theorem download_and_encode_effects (W : World) (self : AstrBotNotifier)
    (url : string) (st : store) :
  downloads (events (_download_and_encode_image W self url st).2)
    = downloads (events st) ++ [url]
  ∧ posts (events (_download_and_encode_image W self url st).2)
    = posts (events st)
  ∧ _message_illust_map (_download_and_encode_image W self url st).2
    = _message_illust_map st
  ∧ success_ids (_download_and_encode_image W self url st).2 = success_ids st
  ∧ (cover_answer W url st = Returns (Some []) →
     (_download_and_encode_image W self url st).1 = Returns None
     ∧ events (_download_and_encode_image W self url st).2
       = events st ++ [EvDownload url (Returns (Some []))])
  ∧ (∀ image_data b64,
       cover_answer W url st = Returns (Some image_data) →
       image_data ≠ [] →
       compress_image W self image_data = Returns b64 →
       (_download_and_encode_image W self url st).1 = Returns (Some b64)).
Proof.
  rewrite _download_and_encode_image_eq. cbv zeta.
  fold (cover_answer W url st). simpl.
  split; [|split; [|split; [|split; [|split]]]]; try done.
  - rewrite downloads_app. simpl. by rewrite downloads_encode_logs.
  - rewrite posts_app. simpl. rewrite posts_encode_logs. by rewrite app_nil_r.
  - by intros ->.
  - intros image_data b64 -> Hne Hc. unfold encoded.
    destruct image_data; [done|]. by rewrite Hc.
Qed.

Lemma download_and_encode_effects_witness :
  (_download_and_encode_image world_palette_image bot
     "https://i.pximg.net/7.png" init_store).1 = Returns (Some "/9g=").
Proof.
  apply (proj2 (proj2 (proj2 (proj2 (proj2
           (download_and_encode_effects world_palette_image bot
              "https://i.pximg.net/7.png" init_store)))))
           [Byte.x50] "/9g=");
    [reflexivity|discriminate|reflexivity].
Defined.

(* ===================================================================== *)
(** ** The base URL *)
(* ===================================================================== *)

Lemma rstrip_slash_spec (s : string) :
  ends_with_slash (rstrip_slash s) = false
  ∧ ∃ n, s = rstrip_slash s +:+ slashes n.
Proof.
  induction s as [|c rest [IHe [n IHn]]]; [split; [done|by exists 0%nat]|].
  simpl. destruct (rstrip_slash rest) as [|c' r'] eqn:E.
  - destruct (Ascii.eqb c (Ascii.ascii_of_nat 47)) eqn:Ec.
    + apply Ascii.eqb_eq in Ec. subst c. split; [done|].
      exists (S n). simpl. by rewrite IHn at 1.
    + split; [done|]. exists n. simpl. by rewrite IHn at 1.
  - split; [done|]. exists n. rewrite append_cons. by rewrite <- IHn.
Qed.

(** X15.  The base URL [__init__] keeps never ends in a slash and is the
    URL given with its trailing slashes, and only them, taken off; so the
    endpoint posted to is that URL followed by [/api/v1/send]. *)
Theorem init_strips_trailing_slashes (url origin : string)
    (key : option string) (cb : option (Z -> string -> outcome unit))
    (pages quality edge : Z) (message_chain : list segment) :
  ends_with_slash (http_url (__init__ url origin key cb pages quality edge))
    = false
  ∧ (∃ n, url = http_url (__init__ url origin key cb pages quality edge)
                  +:+ slashes n)
  ∧ req_url (request_of (__init__ url origin key cb pages quality edge)
               message_chain)
    = rstrip_slash url +:+ "/api/v1/send".
Proof.
  simpl. destruct (rstrip_slash_spec url) as [He Hn]. done.
Qed.

(* ===================================================================== *)
(** ** More on the caption *)
(* ===================================================================== *)

(** X16.  For a record that is not long-form, the caption starts with the
    adult-content marker exactly when the record is flagged; and for one
    that is not flagged either, it starts with the animation marker
    exactly when the record's type is ["ugoira"] (a record without type
    counts as an illustration). *)
Theorem caption_leading_marks (W : World) (self : AstrBotNotifier)
    (illust : Illust) :
  page_count illust ≤ max_pages self →
  (String.prefix "🔞 " (format_message W self illust) = true
   ↔ is_r18 illust = true)
  ∧ (is_r18 illust = false →
     (String.prefix "🎞️ " (format_message W self illust) = true
      ↔ type illust = Some "ugoira")).
Proof.
  intros Hpc. unfold format_message, long_mark.
  replace (page_count illust >? max_pages self) with false
    by (symmetry; rewrite Z.gtb_ltb; apply Z.ltb_ge; lia).
  unfold r18_mark, ugoira_mark. destruct (is_r18 illust).
  - split; [|done]. split; [done|intros _]. simpl.
    first [done | apply prefix_nil].
  - split.
    + split; [|done].
      destruct (String.eqb _ "ugoira"); simpl; discriminate.
    + intros _. destruct (type illust) as [t|]; simpl.
      * destruct (String.eqb t "ugoira") eqn:E.
        -- apply String.eqb_eq in E. subst. split; [done|intros _].
           simpl. first [done | apply prefix_nil].
        -- apply String.eqb_neq in E. split; [simpl; discriminate|].
           intros H. by inversion H.
      * split; [simpl; discriminate|done].
Qed.

Lemma caption_leading_marks_witness :
  String.prefix "🔞 "
    (format_message world_second_refused bot (illust_of 1 1 [])) = true
  ↔ is_r18 (illust_of 1 1 []) = true.
Proof.
  apply (proj1 (caption_leading_marks world_second_refused bot
                  (illust_of 1 1 []) ltac:(simpl; lia))).
Defined.

(** Characters of a string, to read a caption from its end. *)
Lemma chars_app (a b : string) :
  String.list_ascii_of_string (a +:+ b)
  = String.list_ascii_of_string a ++ String.list_ascii_of_string b.
Proof.
  induction a as [|c a IH]; [done|]. rewrite append_cons. simpl.
  by rewrite IH.
Qed.

Lemma chars_inj (a b : string) :
  String.list_ascii_of_string a = String.list_ascii_of_string b → a = b.
Proof.
  intros H. rewrite <- (String.string_of_list_ascii_of_string a),
    <- (String.string_of_list_ascii_of_string b). by rewrite H.
Qed.

Lemma occurs_chars (c : Ascii.ascii) (s : string) :
  occurs c s = false → c ∉ String.list_ascii_of_string s.
Proof.
  induction s as [|x s IH]; simpl; [intros _; apply not_elem_of_nil|].
  intros H. apply orb_false_iff in H as [Hx Hs].
  apply not_elem_of_cons. split; [|by apply IH].
  intros ->. by rewrite Ascii.eqb_refl in Hx.
Qed.

Lemma pretty_N_char_no_space (n : N) :
  Ascii.eqb space (pretty_N_char n) = false.
Proof.
  destruct n as [|p]; [done|].
  do 5 (try destruct p as [p|p|]; try reflexivity).
Qed.

Lemma occurs_space_pretty_N_go (x : N) (s : string) :
  occurs space (pretty_N_go x s) = occurs space s.
Proof.
  revert s. induction (N.lt_wf_0 x) as [x _ IH]; intros s.
  destruct (decide (x = 0)%N) as [->|Hx].
  - by rewrite pretty_N_go_0.
  - rewrite pretty_N_go_step by lia.
    rewrite IH by (apply N.div_lt; lia).
    by rewrite occurs_cons, pretty_N_char_no_space.
Qed.

(** The decimal form of an integer has no space. *)
Lemma occurs_space_str (n : Z) : occurs space (str n) = false.
Proof.
  assert (Hp : ∀ p, occurs space (pretty (Npos p)) = false).
  { intros p. unfold pretty, pretty_N. case_decide; [done|].
    by rewrite occurs_space_pretty_N_go. }
  unfold str, pretty, pretty_Z. destruct n as [|p|p]; [done|apply Hp|].
  rewrite occurs_app. simpl. apply Hp.
Qed.

(** Two lists that agree after a separator, read from the end, agree on
    what follows the last separator. *)
Lemma first_field_eq {A} (sep : A) (d1 d2 x y : list A) :
  sep ∉ d1 → sep ∉ d2 → d1 ++ sep :: x = d2 ++ sep :: y → d1 = d2.
Proof.
  revert d2. induction d1 as [|a d1 IH]; intros [|b d2] H1 H2 Heq;
    simpl in *; try done.
  - inversion Heq; subst. exfalso. apply H2. by left.
  - inversion Heq; subst. exfalso. apply H1. by left.
  - inversion Heq; subst. f_equal.
    apply not_elem_of_cons in H1 as [_ H1].
    apply not_elem_of_cons in H2 as [_ H2]. by apply IH.
Qed.

Lemma last_field_eq {A} (sep : A) (d1 d2 x y : list A) :
  sep ∉ d1 → sep ∉ d2 → x ++ sep :: d1 = y ++ sep :: d2 → d1 = d2.
Proof.
  intros H1 H2 Heq. apply (f_equal reverse) in Heq.
  rewrite !reverse_app, !reverse_cons, <- !app_assoc in Heq. simpl in Heq.
  apply first_field_eq in Heq.
  - by apply (inj reverse).
  - by rewrite elem_of_reverse.
  - by rewrite elem_of_reverse.
Qed.

(** X17.  The caption tells the illustration: two records with the same
    caption have the same identifier, the one the reply line ends with. *)
Theorem caption_determines_id (W : World) (self : AstrBotNotifier)
    (a b : Illust) :
  format_message W self a = format_message W self b → id a = id b.
Proof.
  intros H. apply (f_equal String.list_ascii_of_string) in H.
  unfold format_message in H.
  repeat rewrite chars_app in H. rewrite !app_assoc in H.
  apply app_inv_tail in H.
  assert (HR : ∃ R0, String.list_ascii_of_string "回复 " = R0 ++ [space])
    by (exists (removelast (String.list_ascii_of_string "回复 "));
        reflexivity).
  destruct HR as [R0 HR]. rewrite HR in H.
  match type of H with
  | (?pa ++ _) ++ _ = (?pb ++ _) ++ _ =>
      generalize dependent pa; generalize dependent pb
  end.
  intros pb pa H. rewrite !app_assoc in H.
  rewrite <- !(app_assoc _ [space]) in H. simpl in H.
  apply last_field_eq in H.
  - apply chars_inj in H. unfold str in H. by apply (inj pretty) in H.
  - apply occurs_chars, occurs_space_str.
  - apply occurs_chars, occurs_space_str.
Qed.

Lemma caption_determines_id_witness :
  id (illust_of 7 1 []) = id (illust_of 7 1 ["u"]).
Proof.
  apply (caption_determines_id world_second_refused bot
           (illust_of 7 1 []) (illust_of 7 1 ["u"])).
  reflexivity.
Defined.

(* ===================================================================== *)
(** ** Batches, whole and split *)
(* ===================================================================== *)

Section Splitting.

Context (W : World) (self : AstrBotNotifier).

Lemma count_downloads_app tr1 tr2 :
  count_downloads (tr1 ++ tr2)
    = (count_downloads tr1 + count_downloads tr2)%nat.
Proof.
  induction tr1 as [|[] tr1 IH]; simpl; [done|..]; by rewrite ?IH.
Qed.

Lemma count_downloads_length tr :
  count_downloads tr = length (downloads tr).
Proof. induction tr as [|[] tr IH]; simpl; by rewrite ?IH. Qed.

Lemma answer_of_alike illust st1 st2 :
  alike st1 st2 →
  answer_of W self illust st1 = answer_of W self illust st2.
Proof.
  intros (Hp & Hd & _).
  unfold answer_of, chain_of, cover_segments, cover_answer.
  by rewrite Hp, Hd.
Qed.

Lemma send_one_alike illust st1 st2 :
  alike st1 st2 →
  alike (send_one W self illust st1).2 (send_one W self illust st2).2.
Proof.
  intros H. pose proof H as (Hp & Hd & Hm). unfold alike.
  rewrite !count_posts_send_one, Hp.
  rewrite !count_downloads_length, !downloads_send_one, !length_app.
  rewrite <- !count_downloads_length, Hd.
  rewrite !send_one_eq. simpl.
  by rewrite (answer_of_alike illust st1 st2 H), Hm.
Qed.

Lemma send_loop_alike illusts st1 st2 :
  alike st1 st2 →
  alike (send_loop W self illusts st1).2 (send_loop W self illusts st2).2
  ∧ ∃ ids,
      success_ids (send_loop W self illusts st1).2 = success_ids st1 ++ ids
      ∧ success_ids (send_loop W self illusts st2).2 = success_ids st2 ++ ids.
Proof.
  revert st1 st2. induction illusts as [|illust rest IH]; intros st1 st2 H.
  - split; [done|]. exists []. by rewrite !app_nil_r.
  - rewrite !send_loop_cons.
    destruct (IH _ _ (send_one_alike illust st1 st2 H))
      as (Ha & ids & H1 & H2).
    split; [done|]. rewrite H1, H2, !success_ids_send_one.
    rewrite (answer_of_alike illust st1 st2 H).
    eexists. by rewrite <- !app_assoc.
Qed.

End Splitting.

Lemma send_returns_ok (W : World) (self : AstrBotNotifier)
    (illusts : list Illust) (st : store) :
  ∃ ids, (send W self illusts st).1 = Returns ids.
Proof.
  destruct (send_run W self illusts st) as (_ & Hids & _). eauto.
Qed.

(** X18.  Sending a batch in two calls gives what sending it in one call
    gives: the identifiers returned by the two calls, one after the other,
    are those the single call returns, and the correlation map is the
    same. *)
Theorem send_in_two_calls (W : World) (self : AstrBotNotifier)
    (l1 l2 : list Illust) (st : store) :
  ∃ ids1 ids2,
    (send W self l1 st).1 = Returns ids1
    ∧ (send W self l2 (send W self l1 st).2).1 = Returns ids2
    ∧ (send W self (l1 ++ l2) st).1 = Returns (ids1 ++ ids2)
    ∧ _message_illust_map (send W self l2 (send W self l1 st).2).2
      = _message_illust_map (send W self (l1 ++ l2) st).2.
Proof.
  destruct l1 as [|a l1].
  { exists []. simpl.
    destruct (send_returns_ok W self l2 st) as [ids Hids].
    exists ids. by rewrite Hids. }
  destruct l2 as [|b l2].
  { rewrite app_nil_r. destruct (send_returns_ok W self (a :: l1) st)
      as [ids Hids]. exists ids, []. rewrite app_nil_r. by rewrite Hids. }
  rewrite <- app_comm_cons, !send_eq. simpl. eexists _, _.
  split; [reflexivity|]. split; [reflexivity|].
  rewrite app_comm_cons, state_before_app.
  set (st1 := state_before W self (a :: l1) st).
  unfold state_before.
  assert (Hal : alike (set_success_ids [] (emit (EvLog INFO) st1)) st1).
  { unfold alike. simpl. rewrite count_posts_app, count_downloads_app.
    simpl. unfold count_posts at 2. simpl. by rewrite !Nat.add_0_r. }
  destruct (send_loop_alike W self (b :: l2) _ _ Hal)
    as ((_ & _ & Hm) & ids & H1 & H2).
  rewrite H1, H2, Hm. done.
Qed.

Lemma new_answers_from_gateway (W : World) (self : AstrBotNotifier)
    (illusts : list Illust) (st : store) (a : outcome response) :
  a ∈ new_answers W self illusts st → ∃ n r, a = session_post W n r.
Proof.
  destruct (send_loop_answers W self illusts (set_success_ids [] st))
    as (ans & Hans & _ & _ & Hidx).
  rewrite (new_answers_eq W self illusts st ans Hans).
  intros [i Hi]%list_elem_of_lookup.
  destruct (Hidx i a Hi) as [r Hr]. eauto.
Qed.

Lemma filter_all_or_none {A} (P : A → Prop) `{∀ x, Decision (P x)}
    (l : list A) :
  (Forall P l → filter P l = l) ∧ (Forall (λ x, ¬ P x) l → filter P l = []).
Proof.
  induction l as [|x l [IH1 IH2]]; [done|]. rewrite filter_cons. split.
  - intros [Hx Hl]%Forall_cons. rewrite decide_True by done.
    by rewrite IH1.
  - intros [Hx Hl]%Forall_cons. rewrite decide_False by done. by apply IH2.
Qed.

(** X19.  When the gateway refuses every delivery (a status other than
    200, a connection error or a timeout), [send] returns the empty list,
    the worst it can do; when it answers every delivery 200 with a truthy
    body, [send] returns the identifiers of all the records, in order. *)
Theorem send_all_or_nothing (W : World) (self : AstrBotNotifier)
    (illusts : list Illust) (st : store) :
  ((∀ n r, answers_other_status (session_post W n r)
           ∨ session_post W n r = Raises ClientError
           ∨ session_post W n r = Raises TimeoutError) →
   (send W self illusts st).1 = Returns [])
  ∧ ((∀ n r, ∃ body, answers_200 body (session_post W n r)
                     ∧ truthy body = true) →
     (send W self illusts st).1 = Returns (id <$> illusts)).
Proof.
  destruct (send_run W self illusts st) as (Hlen & Hids & _).
  rewrite Hids. split; intros Hgw; f_equal.
  - rewrite (proj2 (filter_all_or_none _ _)); [done|].
    apply Forall_forall. intros [illust a] Hin. simpl.
    assert (Ha : a ∈ new_answers W self illusts st).
    { apply list_elem_of_lookup in Hin as [i Hi].
      apply lookup_zip_with_Some in Hi as (x & y & Heq & _ & Hy).
      inversion Heq; subst. by eapply list_elem_of_lookup_2. }
    destruct (new_answers_from_gateway _ _ _ _ _ Ha) as (n & r & ->).
    destruct (Hgw n r) as [H|[H|H]].
    + by rewrite (delivered_other_status _ H).
    + by rewrite H.
    + by rewrite H.
  - rewrite (proj1 (filter_all_or_none _ _)).
    + trans (id <$> (zip illusts (new_answers W self illusts st)).*1).
      * by rewrite <- list_fmap_compose.
      * by rewrite fst_zip by lia.
    + apply Forall_forall. intros [illust a] Hin. simpl.
      assert (Ha : a ∈ new_answers W self illusts st).
      { apply list_elem_of_lookup in Hin as [i Hi].
        apply lookup_zip_with_Some in Hi as (x & y & Heq & _ & Hy).
        inversion Heq; subst. by eapply list_elem_of_lookup_2. }
      destruct (new_answers_from_gateway _ _ _ _ _ Ha) as (n & r & ->).
      destruct (Hgw n r) as (body & Hb & Ht).
      by rewrite (delivered_200 _ _ Hb).
Qed.

Lemma send_all_or_nothing_witness :
  (send world_unreachable bot batch_of_three init_store).1 = Returns []
  ∧ (send world_same_id bot batch_of_three init_store).1 = Returns [1; 2; 3].
Proof.
  split.
  - apply (proj1 (send_all_or_nothing world_unreachable bot batch_of_three
                    init_store)).
    intros n r. right. left. reflexivity.
  - apply (proj2 (send_all_or_nothing world_same_id bot batch_of_three
                    init_store)).
    intros n r. eexists. split; [eexists; repeat split; reflexivity|].
    reflexivity.
Defined.
